(** * Disjoint sets (union-find) with path compression

    A shallow embedding of the two [DisjointSet] classes of
    [src/graph/union_find.py] (union by rank) and
    [src/graph/Union_find_by_Size.py] (union by size), and the
    properties their specification states about them.

    Python integers are unbounded, hence [Z].  The two lists of an object
    are mutated in place by the methods, so every method is a
    state-and-exception computation over the object.  The recursion of
    [find] is bounded by an explicit depth (Python's recursion limit):
    running out of it is the [RecursionError] of the interpreter. *)

From Stdlib Require Import ZArith List Lia Bool.
From stdpp Require Import base list.

Open Scope Z_scope.

(** * The model *)

(** ** Python lists indexed by integers *)

(** [l[i]] accepts [-len(l) <= i < len(l)]: a negative [i] counts from the
    end.  Anything else is an [IndexError]. *)
Definition index (n : nat) (i : Z) : option nat :=
  if (0 <=? i) && (i <? Z.of_nat n) then Some (Z.to_nat i)
  else if (- Z.of_nat n <=? i) && (i <? 0) then Some (Z.to_nat (Z.of_nat n + i))
  else None.

Definition getitem (l : list Z) (i : Z) : option Z :=
  match index (length l) i with
  | Some k => l !! k
  | None => None
  end.

Definition setitem (l : list Z) (i : Z) (v : Z) : option (list Z) :=
  match index (length l) i with
  | Some k => Some (<[k := v]> l)
  | None => None
  end.

(** ** The object and its methods *)

(** [weight] is the second list of the object: [self.rank] in
    [union_find.py], [self.size] in [Union_find_by_Size.py]. *)
Record DisjointSet : Type := mkDS {
  parent : list Z;
  weight : list Z
}.

Inductive variant : Type := ByRank | BySize.

Inductive exn : Type := IndexError | RecursionError.

Inductive result (A : Type) : Type :=
| Ok (a : A)
| Raise (e : exn).
Arguments Ok {A} a.
Arguments Raise {A} e.

(** A method call: it returns or raises, and leaves the object in some
    state either way. *)
Definition M (A : Type) : Type := DisjointSet -> result A * DisjointSet.

Definition ret {A} (a : A) : M A := fun s => (Ok a, s).

Definition raise {A} (e : exn) : M A := fun s => (Raise e, s).

Definition bind {A B} (m : M A) (k : A -> M B) : M B :=
  fun s => match m s with
           | (Ok a, s') => k a s'
           | (Raise e, s') => (Raise e, s')
           end.

Declare Scope py_scope.
Delimit Scope py_scope with py.
Notation "x <- m ;; k" := (bind m (fun x => k))
  (at level 100, m at next level, right associativity) : py_scope.
Notation "m ;;; k" := (bind m (fun _ => k))
  (at level 100, right associativity) : py_scope.
Open Scope py_scope.

(** [self.parent[i]] *)
Definition get_parent (i : Z) : M Z :=
  fun s => match getitem (parent s) i with
           | Some v => (Ok v, s)
           | None => (Raise IndexError, s)
           end.

(** [self.parent[i] = v] *)
Definition set_parent (i v : Z) : M unit :=
  fun s => match setitem (parent s) i v with
           | Some p => (Ok tt, mkDS p (weight s))
           | None => (Raise IndexError, s)
           end.

(** [self.rank[i]], [self.size[i]] *)
Definition get_weight (i : Z) : M Z :=
  fun s => match getitem (weight s) i with
           | Some v => (Ok v, s)
           | None => (Raise IndexError, s)
           end.

(** [self.rank[i] = v], [self.size[i] = v] *)
Definition set_weight (i v : Z) : M unit :=
  fun s => match setitem (weight s) i v with
           | Some w => (Ok tt, mkDS (parent s) w)
           | None => (Raise IndexError, s)
           end.

(** [__init__]: [range(size)] and [[c] * size] are empty for [size <= 0]. *)
Definition init (v : variant) (size : Z) : DisjointSet :=
  mkDS (map Z.of_nat (seq 0 (Z.to_nat size)))
       (replicate (Z.to_nat size) (match v with ByRank => 0 | BySize => 1 end)).

(** [find], the same text in both files:
<<
    if x != self.parent[x]:
        self.parent[x] = self.find(self.parent[x])
    return self.parent[x]
>>
    [depth] is the number of nested calls the interpreter still allows. *)
Fixpoint find (depth : nat) (x : Z) : M Z :=
  match depth with
  | O => raise RecursionError
  | S depth' =>
      px <- get_parent x ;;
      (if negb (x =? px) then
         px' <- get_parent x ;;
         r <- find depth' px' ;;
         set_parent x r
       else ret tt) ;;;
      get_parent x
  end.

(** [union] of [union_find.py]. *)
Definition union_by_rank (depth : nat) (x y : Z) : M bool :=
  ultimate_parent_of_x <- find depth x ;;
  ultimate_parent_of_y <- find depth y ;;
  if ultimate_parent_of_x =? ultimate_parent_of_y then ret false
  else
    rx <- get_weight ultimate_parent_of_x ;;
    ry <- get_weight ultimate_parent_of_y ;;
    (if rx <? ry then
       set_parent ultimate_parent_of_x ultimate_parent_of_y
     else
       ry' <- get_weight ultimate_parent_of_y ;;
       rx' <- get_weight ultimate_parent_of_x ;;
       if ry' <? rx' then
         set_parent ultimate_parent_of_y ultimate_parent_of_x
       else
         set_parent ultimate_parent_of_y ultimate_parent_of_x ;;;
         r <- get_weight ultimate_parent_of_x ;;
         set_weight ultimate_parent_of_x (r + 1)) ;;;
    ret true.

(** [union] of [Union_find_by_Size.py]. *)
Definition union_by_size (depth : nat) (x y : Z) : M bool :=
  rootX <- find depth x ;;
  rootY <- find depth y ;;
  if rootX =? rootY then ret false
  else
    sx <- get_weight rootX ;;
    sy <- get_weight rootY ;;
    (if sx <? sy then
       set_parent rootX rootY ;;;
       a <- get_weight rootY ;;
       b <- get_weight rootX ;;
       set_weight rootY (a + b)
     else
       set_parent rootY rootX ;;;
       a <- get_weight rootX ;;
       b <- get_weight rootY ;;
       set_weight rootX (a + b)) ;;;
    ret true.

Definition union (v : variant) : nat -> Z -> Z -> M bool :=
  match v with
  | ByRank => union_by_rank
  | BySize => union_by_size
  end.

(** [is_connected], the same text in both files. *)
Definition is_connected (depth : nat) (x y : Z) : M bool :=
  a <- find depth x ;;
  b <- find depth y ;;
  ret (a =? b).

(** ** Sequences of calls *)

Inductive call : Type :=
| Find (x : Z)
| Union (x y : Z)
| IsConnected (x y : Z).

(** The state a call leaves behind, whether it returned or raised. *)
Definition exec (v : variant) (depth : nat) (c : call) (s : DisjointSet) : DisjointSet :=
  match c with
  | Find x => snd (find depth x s)
  | Union x y => snd (union v depth x y s)
  | IsConnected x y => snd (is_connected depth x y s)
  end.

Definition run (v : variant) (depth : nat) (cs : list call) (s : DisjointSet) : DisjointSet :=
  fold_left (fun s c => exec v depth c s) cs s.

(** * Notions of the specification *)

(** ** The forest read off the [parent] list *)

(** Entry [x] of a list, for [x] in [[0, len)]. *)
Definition entry (l : list Z) (x : Z) : option Z :=
  if 0 <=? x then l !! Z.to_nat x else None.

(** The list with entry [x] set to [v], for [x] in [[0, len)]. *)
Definition upd (l : list Z) (x v : Z) : list Z := <[Z.to_nat x := v]> l.

(** [chain p x vs r]: following [parent] from [x] visits the nodes [vs]
    (none of them a root) and stops at the root [r], where
    [parent[r] == r]. *)
Inductive chain (p : list Z) : Z -> list Z -> Z -> Prop :=
| chain_root r : entry p r = Some r -> chain p r [] r
| chain_step x y vs r :
    entry p x = Some y -> y <> x -> chain p y vs r -> chain p x (x :: vs) r.

(** Path compression: every visited node points at the root. *)
Definition compress (p : list Z) (vs : list Z) (r : Z) : list Z :=
  foldr (fun v acc => upd acc v r) p vs.

(** The root of [x], computed by following at most [fuel] entries. *)
Fixpoint root (fuel : nat) (p : list Z) (x : Z) : option Z :=
  match fuel with
  | O => None
  | S fuel' =>
      match entry p x with
      | None => None
      | Some y => if y =? x then Some x else root fuel' p y
      end
  end.

(** The elements [0 .. n-1]. *)
Definition indices (n : nat) : list Z := map Z.of_nat (seq 0 n).

(** The representative of [x]'s set. *)
Definition rep (s : DisjointSet) (x : Z) : option Z :=
  root (length (parent s)) (parent s) x.

(** [parent] is a forest: every element has a chain to a root. *)
Definition Forest (p : list Z) : Prop :=
  forall x, 0 <= x < Z.of_nat (length p) -> exists vs r, chain p x vs r.

(** The same, as a check: a chain visits no node twice, so [length p] steps
    reach the root of every element of a forest ([forest_Forest]). *)
Definition forest (p : list Z) : bool :=
  forallb (fun x => match root (length p) p x with Some _ => true | None => false end)
          (indices (length p)).

(** Well-formed objects: the two lists have the same length and [parent]
    is a forest over [[0, len)]. *)
Definition wf (s : DisjointSet) : bool :=
  (length (weight s) =? length (parent s))%nat && forest (parent s).

(** [parent[x] == x] *)
Definition is_root (p : list Z) (x : Z) : bool :=
  match entry p x with
  | Some y => y =? x
  | None => false
  end.

(** ** Indices Python accepts *)

(** Python's reading of an index that is in range. *)
Definition norm (n : nat) (x : Z) : Z :=
  if x <? 0 then Z.of_nat n + x else x.

(** The indices a list of length [n] accepts. *)
Definition valid (n : nat) (x : Z) : Prop := - Z.of_nat n <= x < Z.of_nat n.

(** ** Answers *)

(** [x] and [y] have the same representative. *)
Definition same_set (s : DisjointSet) (x y : Z) : bool :=
  match rep s x, rep s y with
  | Some a, Some b => a =? b
  | _, _ => false
  end.

(** A sequence of calls of [find] and [is_connected] only. *)
Definition no_union (cs : list call) : bool :=
  forallb (fun c => match c with Union _ _ => false | _ => true end) cs.

(** ** Sizes of the sets *)

(** Number of elements whose set has root [r]. *)
Definition members (s : DisjointSet) (r : Z) : Z :=
  Z.of_nat (length (filter (fun x => rep s x = Some r) (indices (length (parent s))))).

(** The current roots. *)
Definition roots (s : DisjointSet) : list Z :=
  filter (fun x => is_root (parent s) x = true) (indices (length (parent s))).

(** [weight[x]], for [x] in [[0, len)]. *)
Definition weight_at (s : DisjointSet) (x : Z) : Z :=
  match entry (weight s) x with
  | Some w => w
  | None => 0
  end.

Definition sumZ (l : list Z) : Z := foldr Z.add 0 l.

(** Sum of the weights of the current roots. *)
Definition root_weights (s : DisjointSet) : Z := sumZ (map (weight_at s) (roots s)).

(** In the size variant every root carries the size of its set. *)
Definition size_ok (s : DisjointSet) : Prop :=
  forall r, is_root (parent s) r = true -> entry (weight s) r = Some (members s r).

(** ** Relations between states *)

(** [s'] has the elements, weights, representatives and roots of [s]: the
    two differ in [parent] only, and there by path compression. *)
Definition same_partition (s s' : DisjointSet) : Prop :=
  length (parent s') = length (parent s) /\
  weight s' = weight s /\
  (forall u, rep s' u = rep s u) /\
  (forall u, is_root (parent s') u = is_root (parent s) u).

(** Elements of one set in [s] are in one set in [s']. *)
Definition coarser (s s' : DisjointSet) : Prop :=
  length (parent s') = length (parent s) /\
  forall u v r, rep s u = Some r -> rep s v = Some r ->
                exists r', rep s' u = Some r' /\ rep s' v = Some r'.

(** ** The merge of two roots *)

(** The state after the merge of two distinct roots [rx] and [ry]. *)
Definition merge (v : variant) (s : DisjointSet) (rx ry : Z) : DisjointSet :=
  let wx := weight_at s rx in
  let wy := weight_at s ry in
  if wx <? wy then
    mkDS (upd (parent s) rx ry)
         (match v with
          | ByRank => weight s
          | BySize => upd (weight s) ry (wy + wx)
          end)
  else
    mkDS (upd (parent s) ry rx)
         (match v with
          | ByRank => if wy <? wx then weight s else upd (weight s) rx (wx + 1)
          | BySize => upd (weight s) rx (wx + wy)
          end).

(** The root that [merge] puts under the other one, and the one that stays. *)
Definition loser (s : DisjointSet) (rx ry : Z) : Z :=
  if weight_at s rx <? weight_at s ry then rx else ry.

Definition survivor (s : DisjointSet) (rx ry : Z) : Z :=
  if weight_at s rx <? weight_at s ry then ry else rx.

(** ** Counting the merges *)

(** The number of calls of [union] in a sequence that return true. *)
Fixpoint merges (v : variant) (depth : nat) (cs : list call) (s : DisjointSet) : nat :=
  match cs with
  | [] => 0
  | c :: cs' =>
      (match c with
       | Union x y => match fst (union v depth x y s) with
                      | Ok true => 1
                      | _ => 0
                      end
       | _ => 0
       end + merges v depth cs' (exec v depth c s))%nat
  end.

(** ** Ranks *)

(** [h] ranks the forest of [s]: it grows strictly along [parent], and a
    root of rank [k] has at least [2 ^ k] elements in its set. *)
Definition ranked (s : DisjointSet) (h : Z -> Z) : Prop :=
  (forall x, 0 <= h x) /\
  (forall x y, entry (parent s) x = Some y -> y <> x -> h x < h y) /\
  (forall r, is_root (parent s) r = true -> 2 ^ h r <= members s r).

(** * Lemmas *)

(** ** The scenarios of the specification, run on the model *)

(** Five elements, union(0,1), union(1,2), union(2,0), union(3,4), then
    is_connected(0,2) and is_connected(0,3). *)
Example scenario_cycle_detection v :
  let s0 := init v 5 in
  let '(r1, s1) := union v 6 0 1 s0 in
  let '(r2, s2) := union v 6 1 2 s1 in
  let '(r3, s3) := union v 6 2 0 s2 in
  let '(r4, s4) := union v 6 3 4 s3 in
  let '(r5, s5) := is_connected 6 0 2 s4 in
  let '(r6, s6) := is_connected 6 0 3 s5 in
  (r1, r2, r3, r4, r5, r6) = (Ok true, Ok true, Ok false, Ok true, Ok true, Ok false).
Proof. destruct v; reflexivity. Qed.

(** Four elements, union(0,1), union(2,3), union(1,2), then
    is_connected(0,3) and union(0,3). *)
Example scenario_full_merge v :
  let s0 := init v 4 in
  let '(r1, s1) := union v 5 0 1 s0 in
  let '(r2, s2) := union v 5 2 3 s1 in
  let '(r3, s3) := union v 5 1 2 s2 in
  let '(r4, s4) := is_connected 5 0 3 s3 in
  let '(r5, s5) := union v 5 0 3 s4 in
  (r1, r2, r3, r4, r5) = (Ok true, Ok true, Ok true, Ok true, Ok false).
Proof. destruct v; reflexivity. Qed.

(** Three elements: find(3) raises and changes nothing; find(-1) returns. *)
Example scenario_out_of_range v :
  find 4 3 (init v 3) = (Raise IndexError, init v 3) /\
  find 4 (-1) (init v 3) = (Ok 2, init v 3).
Proof. destruct v; split; reflexivity. Qed.

(** Union by size on five elements: the sizes of the roots 0 and 4. *)
Example scenario_sizes :
  let s := run BySize 6 [Union 0 1; Union 2 3; Union 1 3] (init BySize 5) in
  s = mkDS [0; 0; 0; 2; 4] [4; 1; 2; 1; 1] /\
  roots s = [0; 4] /\ members s 0 = 4 /\ members s 4 = 1 /\ root_weights s = 5.
Proof. repeat split. Qed.

(** ** Lists *)

Lemma entry_Some (l : list Z) x y :
  entry l x = Some y -> 0 <= x < Z.of_nat (length l).
Proof.
  unfold entry. destruct (Z.leb_spec 0 x); [|discriminate].
  intros H'. apply lookup_lt_Some in H'. lia.
Qed.

Lemma entry_is_Some (l : list Z) x :
  0 <= x < Z.of_nat (length l) -> exists y, entry l x = Some y.
Proof.
  intros Hx. unfold entry. destruct (Z.leb_spec 0 x); [|lia].
  destruct (lookup_lt_is_Some_2 l (Z.to_nat x)) as [y Hy]; [lia|]. eauto.
Qed.

Lemma length_upd (l : list Z) x v : length (upd l x v) = length l.
Proof. apply length_insert. Qed.

Lemma entry_upd_eq (l : list Z) x v :
  0 <= x < Z.of_nat (length l) -> entry (upd l x v) x = Some v.
Proof.
  intros Hx. unfold entry, upd. destruct (Z.leb_spec 0 x); [|lia].
  apply list_lookup_insert_eq. lia.
Qed.

Lemma entry_upd_ne (l : list Z) x y v :
  0 <= x -> x <> y -> entry (upd l x v) y = entry l y.
Proof.
  intros Hx Hne. unfold entry, upd. destruct (Z.leb_spec 0 y); [|reflexivity].
  apply list_lookup_insert_ne. lia.
Qed.

Lemma upd_same (l : list Z) x v : entry l x = Some v -> upd l x v = l.
Proof.
  unfold entry, upd. destruct (Z.leb_spec 0 x); [|discriminate].
  apply list_insert_id.
Qed.

Lemma norm_range n x : valid n x -> 0 <= norm n x < Z.of_nat n.
Proof. unfold valid, norm. destruct (Z.ltb_spec x 0); lia. Qed.

Lemma norm_nonneg n x : 0 <= x -> norm n x = x.
Proof. unfold norm. destruct (Z.ltb_spec x 0); lia. Qed.

Lemma index_valid n x : valid n x -> index n x = Some (Z.to_nat (norm n x)).
Proof.
  unfold valid, index, norm. intros Hx.
  destruct (Z.leb_spec 0 x), (Z.ltb_spec x (Z.of_nat n)), (Z.ltb_spec x 0),
    (Z.leb_spec (- Z.of_nat n) x); simpl; try lia; reflexivity.
Qed.

Lemma index_invalid n x : ~ valid n x -> index n x = None.
Proof.
  unfold valid, index. intros Hx.
  destruct (Z.leb_spec 0 x), (Z.ltb_spec x (Z.of_nat n)), (Z.ltb_spec x 0),
    (Z.leb_spec (- Z.of_nat n) x); simpl; try lia; reflexivity.
Qed.

Lemma getitem_valid (l : list Z) x :
  valid (length l) x -> getitem l x = entry l (norm (length l) x).
Proof.
  intros Hx. unfold getitem. rewrite (index_valid _ _ Hx).
  pose proof (norm_range _ _ Hx). unfold entry.
  destruct (Z.leb_spec 0 (norm (length l) x)); [reflexivity|lia].
Qed.

Lemma getitem_invalid (l : list Z) x : ~ valid (length l) x -> getitem l x = None.
Proof. intros Hx. unfold getitem. now rewrite (index_invalid _ _ Hx). Qed.

Lemma setitem_valid (l : list Z) x v :
  valid (length l) x -> setitem l x v = Some (upd l (norm (length l) x) v).
Proof. intros Hx. unfold setitem. now rewrite (index_valid _ _ Hx). Qed.

Lemma getitem_entry (l : list Z) x :
  0 <= x < Z.of_nat (length l) -> getitem l x = entry l x.
Proof.
  intros Hx. rewrite getitem_valid by (unfold valid; lia).
  now rewrite norm_nonneg by lia.
Qed.

Lemma setitem_upd (l : list Z) x v :
  0 <= x < Z.of_nat (length l) -> setitem l x v = Some (upd l x v).
Proof.
  intros Hx. rewrite setitem_valid by (unfold valid; lia).
  now rewrite norm_nonneg by lia.
Qed.

Lemma elem_of_indices n x : x ∈ indices n <-> 0 <= x < Z.of_nat n.
Proof.
  unfold indices. rewrite list_elem_of_In, in_map_iff. split.
  - intros (k & <- & Hk). apply in_seq in Hk. lia.
  - intros Hx. exists (Z.to_nat x). split; [lia|]. apply in_seq. lia.
Qed.

Lemma NoDup_indices n : NoDup (indices n).
Proof.
  unfold indices. apply NoDup_fmap_2; [intros a b; lia|]. apply NoDup_seq.
Qed.

Lemma length_indices n : length (indices n) = n.
Proof. unfold indices. now rewrite length_map, length_seq. Qed.

(** ** Chains *)

Lemma chain_start p x vs r : chain p x vs r -> 0 <= x < Z.of_nat (length p).
Proof. destruct 1; eauto using entry_Some. Qed.

Lemma chain_end p x vs r : chain p x vs r -> entry p r = Some r.
Proof. induction 1; auto. Qed.

Lemma chain_det p x vs r :
  chain p x vs r -> forall vs' r', chain p x vs' r' -> vs = vs' /\ r = r'.
Proof.
  induction 1 as [r Hr | x y vs r Hx Hne Hc IH]; intros vs' r' H'.
  - inversion H' as [? Hr' | ? y' ? ? Hx' Hne' Hc']; subst; [auto | congruence].
  - inversion H' as [? Hr' | ? y' ? ? Hx' Hne' Hc']; subst; [congruence|].
    assert (y' = y) by congruence. subst y'.
    destruct (IH _ _ Hc') as [-> ->]. auto.
Qed.

Lemma chain_nodes p x vs r :
  chain p x vs r -> forall v, v ∈ vs -> exists vs1 vs2, vs = vs1 ++ vs2 /\ chain p v vs2 r /\ v <> r.
Proof.
  induction 1 as [r Hr | x y vs r Hx Hne Hc IH]; intros v Hv.
  - inversion Hv.
  - apply elem_of_cons in Hv as [-> | Hv].
    + exists [], (x :: vs). repeat split; [econstructor; eauto|].
      intros ->. apply chain_end in Hc. congruence.
    + destruct (IH _ Hv) as (vs1 & vs2 & -> & Hc' & Hvr).
      exists (x :: vs1), vs2. auto.
Qed.

Lemma chain_NoDup p x vs r : chain p x vs r -> NoDup (vs ++ [r]).
Proof.
  induction 1 as [r Hr | x y vs r Hx Hne Hc IH]; simpl.
  - apply NoDup_singleton.
  - constructor; [|exact IH]. intros Hin. apply elem_of_app in Hin as [Hin | Hin].
    + destruct (chain_nodes _ _ _ _ Hc _ Hin) as (vs1 & vs2 & -> & Hc' & _).
      destruct (chain_det _ _ _ _ (chain_step p x y _ r Hx Hne Hc) _ _ Hc') as [E _].
      apply (f_equal (@length Z)) in E. simpl in E. rewrite length_app in E. lia.
    + apply list_elem_of_singleton in Hin. subst x. apply chain_end in Hc. congruence.
Qed.

Lemma chain_in_range p x vs r :
  chain p x vs r -> forall v, v ∈ vs ++ [r] -> 0 <= v < Z.of_nat (length p).
Proof.
  induction 1 as [r Hr | x y vs r Hx Hne Hc IH]; simpl; intros v Hv.
  - apply list_elem_of_singleton in Hv. subst. eauto using entry_Some.
  - apply elem_of_cons in Hv as [-> | Hv]; eauto using entry_Some.
Qed.

(** A chain visits every node at most once, so it is shorter than the list. *)
Lemma chain_length p x vs r : chain p x vs r -> (length vs < length p)%nat.
Proof.
  intros Hc. pose proof (chain_NoDup _ _ _ _ Hc) as Hnd.
  assert (vs ++ [r] ⊆+ indices (length p)) as Hsub.
  { apply NoDup_submseteq; [exact Hnd|]. intros v Hv.
    apply elem_of_indices. eapply chain_in_range; eauto. }
  apply submseteq_length in Hsub.
  rewrite length_app, length_indices in Hsub. simpl in Hsub. lia.
Qed.

Lemma entry_None (l : list Z) x :
  ~ 0 <= x < Z.of_nat (length l) -> entry l x = None.
Proof.
  intros Hx. destruct (entry l x) eqn:E; [|reflexivity].
  apply entry_Some in E. lia.
Qed.

Lemma root_chain fuel p x r :
  root fuel p x = Some r <-> exists vs, chain p x vs r /\ (length vs < fuel)%nat.
Proof.
  split.
  - revert x. induction fuel as [|fuel IH]; simpl; intros x H; [discriminate|].
    destruct (entry p x) as [y|] eqn:Ex; [|discriminate].
    destruct (Z.eqb_spec y x) as [-> | Hne].
    + injection H as <-. exists []. split; [now constructor | simpl; lia].
    + destruct (IH _ H) as (vs & Hc & Hl). exists (x :: vs).
      split; [econstructor; eauto | simpl; lia].
  - intros (vs & Hc & Hl). revert fuel Hl.
    induction Hc as [r Hr | x y vs r Hx Hne Hc IH]; intros [|fuel] Hl;
      simpl in *; try lia.
    + rewrite Hr, Z.eqb_refl. reflexivity.
    + rewrite Hx. destruct (Z.eqb_spec y x); [contradiction|]. apply IH. lia.
Qed.

Lemma root_of_chain p x vs r : chain p x vs r -> root (length p) p x = Some r.
Proof. intros Hc. apply root_chain. eauto using chain_length. Qed.

Lemma root_out fuel p x : ~ 0 <= x < Z.of_nat (length p) -> root fuel p x = None.
Proof. intros Hx. destruct fuel; simpl; [|rewrite entry_None]; auto. Qed.

Lemma forest_Forest p : forest p = true <-> Forest p.
Proof.
  unfold forest, Forest. rewrite forallb_forall. split.
  - intros H x Hx. specialize (H x).
    destruct (root (length p) p x) as [r|] eqn:E.
    + apply root_chain in E as (vs & Hc & _). eauto.
    + discriminate H. apply list_elem_of_In, elem_of_indices, Hx.
  - intros H x Hx. apply list_elem_of_In, elem_of_indices in Hx.
    destruct (H x Hx) as (vs & r & Hc). now rewrite (root_of_chain _ _ _ _ Hc).
Qed.

(** Two lists with the same roots for every element. *)
Lemma root_ext p p' :
  length p' = length p -> Forest p ->
  (forall u us r, chain p u us r -> exists us', chain p' u us' r) ->
  Forest p' /\ forall u, root (length p') p' u = root (length p) p u.
Proof.
  intros Hlen HF H. split.
  - intros x Hx. rewrite Hlen in Hx. destruct (HF x Hx) as (vs & r & Hc).
    destruct (H _ _ _ Hc) as (us' & Hc'). eauto.
  - intros u. destruct (decide (0 <= u < Z.of_nat (length p))) as [Hu | Hu].
    + destruct (HF u Hu) as (vs & r & Hc). destruct (H _ _ _ Hc) as (us' & Hc').
      now rewrite (root_of_chain _ _ _ _ Hc), (root_of_chain _ _ _ _ Hc').
    + rewrite !root_out; auto. now rewrite Hlen.
Qed.

(** ** Path compression keeps every root *)

Lemma length_compress p vs r : length (compress p vs r) = length p.
Proof. induction vs; simpl; [|rewrite length_upd]; auto. Qed.

Lemma entry_compress_notin p vs r u :
  (forall v, v ∈ vs -> 0 <= v) -> u ∉ vs -> entry (compress p vs r) u = entry p u.
Proof.
  induction vs as [|v vs IH]; simpl; intros Hvs Hu; [reflexivity|].
  rewrite entry_upd_ne.
  - apply IH; [intros; apply Hvs; now right | intros ?; apply Hu; now right].
  - apply Hvs. now left.
  - intros ->. apply Hu. now left.
Qed.

Lemma entry_compress_in p vs r v :
  (forall v, v ∈ vs -> 0 <= v < Z.of_nat (length p)) -> v ∈ vs ->
  entry (compress p vs r) v = Some r.
Proof.
  induction vs as [|a vs IH]; simpl; intros Hvs Hv; [inversion Hv|].
  destruct (decide (a = v)) as [-> | Hne].
  - apply entry_upd_eq. rewrite length_compress. apply Hvs. now left.
  - rewrite entry_upd_ne; [|apply Hvs; now left|exact Hne].
    apply IH; [intros; apply Hvs; now right|].
    apply elem_of_cons in Hv as [-> | Hv]; [contradiction | exact Hv].
Qed.

(** Redirecting non-root nodes to their own roots changes no root. *)
Lemma shortcut_chain p p' :
  (forall u y, entry p u = Some y ->
     entry p' u = Some y \/ exists vs r, chain p u vs r /\ u <> r /\ entry p' u = Some r) ->
  forall u us r, chain p u us r -> exists us', chain p' u us' r.
Proof.
  intros H.
  assert (forall r, entry p r = Some r -> chain p' r [] r) as Hroot.
  { intros r Hr. constructor. destruct (H _ _ Hr) as [E | (vs & r' & Hc & Hne & _)]; [exact E|].
    destruct (chain_det _ _ _ _ Hc _ _ (chain_root p r Hr)) as [_ ->]. contradiction. }
  induction 1 as [r Hr | x y vs r Hx Hne Hc (us' & IH)].
  - eauto.
  - destruct (H _ _ Hx) as [E | (vs' & r' & Hc' & Hne' & E)].
    + exists (x :: us'). econstructor; eauto.
    + destruct (chain_det _ _ _ _ Hc' _ _ (chain_step p x y vs r Hx Hne Hc)) as [_ ->].
      exists [x]. econstructor; [exact E | auto |]. apply Hroot. eauto using chain_end.
Qed.

Lemma compress_chain p x vs r :
  chain p x vs r ->
  forall u us ru, chain p u us ru -> exists us', chain (compress p vs r) u us' ru.
Proof.
  intros Hc. apply shortcut_chain. intros u y Hu.
  assert (forall v, v ∈ vs -> 0 <= v < Z.of_nat (length p)) as Hrange.
  { intros v Hv. eapply chain_in_range; [exact Hc|]. apply elem_of_app. now left. }
  destruct (decide (u ∈ vs)) as [Hin | Hnin].
  - right. destruct (chain_nodes _ _ _ _ Hc _ Hin) as (vs1 & vs2 & _ & Hc' & Hne).
    exists vs2, r. repeat split; auto. now apply entry_compress_in.
  - left. rewrite entry_compress_notin; auto. intros v Hv. now apply Hrange.
Qed.

Lemma is_root_compress p x vs r :
  chain p x vs r -> forall u, is_root (compress p vs r) u = is_root p u.
Proof.
  intros Hc u. unfold is_root.
  assert (forall v, v ∈ vs -> 0 <= v < Z.of_nat (length p)) as Hrange.
  { intros v Hv. eapply chain_in_range; [exact Hc|]. apply elem_of_app. now left. }
  destruct (decide (u ∈ vs)) as [Hin | Hnin].
  - rewrite entry_compress_in by auto.
    destruct (chain_nodes _ _ _ _ Hc _ Hin) as (vs1 & vs2 & _ & Hc' & Hne).
    inversion Hc' as [? Hr' | ? y' ? ? Hx' Hne' Hc'']; subst.
    + contradiction.
    + rewrite Hx'. destruct (Z.eqb_spec r u), (Z.eqb_spec y' u); congruence.
  - rewrite entry_compress_notin; auto. intros v Hv. now apply Hrange.
Qed.

(** ** Linking one root under another *)

Lemma link_chain p a b :
  entry p a = Some a -> entry p b = Some b -> a <> b ->
  forall u us r, chain p u us r ->
  exists us', chain (upd p a b) u us' (if r =? a then b else r).
Proof.
  intros Ha Hb Hab. pose proof (entry_Some _ _ _ Ha) as Hra.
  induction 1 as [r Hr | x y vs r Hx Hne Hc (us' & IH)].
  - destruct (Z.eqb_spec r a) as [-> | Hne].
    + exists [a]. econstructor; [now apply entry_upd_eq | auto |].
      constructor. rewrite entry_upd_ne; auto. lia.
    + exists []. constructor. rewrite entry_upd_ne; auto. lia.
  - exists (x :: us'). econstructor; [|exact Hne|exact IH].
    rewrite entry_upd_ne; auto; [lia | congruence].
Qed.

Lemma root_link p a b :
  Forest p -> entry p a = Some a -> entry p b = Some b -> a <> b ->
  Forest (upd p a b) /\
  forall u, root (length (upd p a b)) (upd p a b) u =
            match root (length p) p u with
            | Some r => Some (if r =? a then b else r)
            | None => None
            end.
Proof.
  intros HF Ha Hb Hab.
  pose proof (link_chain p a b Ha Hb Hab) as H. split.
  - intros x Hx. rewrite length_upd in Hx. destruct (HF x Hx) as (vs & r & Hc).
    destruct (H _ _ _ Hc) as (us' & Hc'). eauto.
  - intros u. destruct (decide (0 <= u < Z.of_nat (length p))) as [Hu | Hu].
    + destruct (HF u Hu) as (vs & r & Hc). destruct (H _ _ _ Hc) as (us' & Hc').
      now rewrite (root_of_chain _ _ _ _ Hc), (root_of_chain _ _ _ _ Hc').
    + rewrite !root_out; auto. now rewrite length_upd.
Qed.

Lemma is_root_link p a b u :
  entry p a = Some a -> a <> b ->
  is_root (upd p a b) u = is_root p u && negb (u =? a).
Proof.
  intros Ha Hab. pose proof (entry_Some _ _ _ Ha) as Hra. unfold is_root.
  destruct (Z.eqb_spec u a) as [-> | Hne].
  - rewrite entry_upd_eq by auto. rewrite andb_false_r. now apply Z.eqb_neq.
  - rewrite entry_upd_ne by (auto; lia). now rewrite andb_true_r.
Qed.

(** ** [find] *)

Lemma find_S d x s :
  find (S d) x s =
  match getitem (parent s) x with
  | None => (Raise IndexError, s)
  | Some px =>
      if x =? px then (Ok px, s)
      else match find d px s with
           | (Ok r, s1) =>
               match setitem (parent s1) x r with
               | Some p' =>
                   match getitem p' x with
                   | Some v => (Ok v, mkDS p' (weight s1))
                   | None => (Raise IndexError, mkDS p' (weight s1))
                   end
               | None => (Raise IndexError, s1)
               end
           | (Raise e, s1) => (Raise e, s1)
           end
  end.
Proof.
  simpl find. unfold bind, get_parent, set_parent, ret.
  destruct (getitem (parent s) x) as [px|] eqn:E; [|reflexivity].
  destruct (x =? px); simpl.
  - now rewrite E.
  - rewrite E. destruct (find d px s) as [[r|e] s1]; [|reflexivity].
    destruct (setitem (parent s1) x r); reflexivity.
Qed.

Lemma find_invalid d x s :
  ~ valid (length (parent s)) x -> find (S d) x s = (Raise IndexError, s).
Proof. intros Hx. rewrite find_S. now rewrite getitem_invalid. Qed.

(** On an index in [[0, len)], [find] needs one call per node of the chain. *)
Lemma find_chain p x vs r :
  chain p x vs r ->
  forall d w,
    ((length vs < d)%nat -> find d x (mkDS p w) = (Ok r, mkDS (compress p vs r) w)) /\
    ((d <= length vs)%nat -> find d x (mkDS p w) = (Raise RecursionError, mkDS p w)).
Proof.
  induction 1 as [r Hr | x y vs r Hx Hne Hc IH]; intros [|d] w;
    (split; intros Hd; simpl length in *; try lia; try reflexivity).
  - rewrite find_S. simpl parent. rewrite getitem_entry by eauto using entry_Some.
    now rewrite Hr, Z.eqb_refl.
  - pose proof (entry_Some _ _ _ Hx) as Hrx.
    rewrite find_S. simpl parent. rewrite getitem_entry, Hx by auto.
    destruct (Z.eqb_spec x y) as [-> | _]; [contradiction|].
    destruct (IH d w) as [H1 _]. rewrite H1 by lia. simpl parent.
    rewrite setitem_upd by now rewrite length_compress.
    rewrite getitem_entry by now rewrite length_upd, length_compress.
    rewrite entry_upd_eq by now rewrite length_compress. reflexivity.
  - pose proof (entry_Some _ _ _ Hx) as Hrx.
    rewrite find_S. simpl parent. rewrite getitem_entry, Hx by auto.
    destruct (Z.eqb_spec x y) as [-> | _]; [contradiction|].
    destruct (IH d w) as [_ H2]. rewrite H2 by lia. reflexivity.
Qed.

(** On any index Python accepts, negative ones included. *)
Lemma find_valid p x vs r :
  valid (length p) x -> chain p (norm (length p) x) vs r ->
  forall d w,
    ((S (length vs) < d)%nat -> find d x (mkDS p w) = (Ok r, mkDS (compress p vs r) w)) /\
    (find d x (mkDS p w) = (Ok r, mkDS (compress p vs r) w) \/
     find d x (mkDS p w) = (Raise RecursionError, mkDS p w)).
Proof.
  intros Hv Hc d w. destruct (Z.ltb_spec x 0) as [Hneg | Hpos].
  - pose proof (norm_range _ _ Hv) as Hn. set (x' := norm (length p) x) in *.
    destruct d as [|d]; [split; [simpl; lia | now right]|].
    rewrite find_S. simpl parent. rewrite getitem_valid by auto. fold x'.
    inversion Hc as [? Hr | ? y vs' ? Hx Hne Hc']; subst.
    + rewrite Hr. destruct (Z.eqb_spec x x') as [E | _]; [lia|].
      destruct (find_chain _ _ _ _ Hc d w) as [H1 H2]. simpl length in *.
      destruct d as [|d].
      * rewrite H2 by lia. split; [lia | now right].
      * rewrite H1 by lia. simpl parent. rewrite setitem_valid by auto. fold x'.
        rewrite (upd_same _ _ _ Hr). rewrite getitem_valid by auto. fold x'.
        rewrite Hr. split; [reflexivity | now left].
    + rewrite Hx. pose proof (chain_start _ _ _ _ Hc') as Hy.
      destruct (Z.eqb_spec x y) as [E | _]; [lia|].
      destruct (find_chain _ _ _ _ Hc' d w) as [H1 H2]. simpl length in *.
      destruct (le_lt_dec d (length vs')) as [Hd | Hd].
      * rewrite H2 by lia. split; [lia | now right].
      * rewrite H1 by lia. simpl parent.
        rewrite setitem_valid by now rewrite length_compress.
        rewrite length_compress. fold x'.
        rewrite getitem_valid by now rewrite length_upd, length_compress.
        rewrite length_upd, length_compress. fold x'.
        rewrite entry_upd_eq by now rewrite length_compress.
        split; [reflexivity | now left].
  - rewrite norm_nonneg in Hc by lia.
    destruct (find_chain _ _ _ _ Hc d w) as [H1 H2].
    split; [intros; apply H1; lia|].
    destruct (le_lt_dec d (length vs)); [right | left]; auto.
Qed.

(** ** States that differ by path compression only *)

Lemma same_partition_refl s : same_partition s s.
Proof. repeat split. Qed.

Lemma same_partition_trans s1 s2 s3 :
  same_partition s1 s2 -> same_partition s2 s3 -> same_partition s1 s3.
Proof.
  intros (L1 & W1 & R1 & I1) (L2 & W2 & R2 & I2).
  split; [congruence|]. split; [congruence|]. split; intros u.
  - now rewrite R2, R1.
  - now rewrite I2, I1.
Qed.

Lemma wf_iff s :
  wf s = true <-> length (weight s) = length (parent s) /\ Forest (parent s).
Proof.
  unfold wf. rewrite andb_true_iff, Nat.eqb_eq, forest_Forest. reflexivity.
Qed.

Lemma rep_is_root s x r :
  rep s x = Some r ->
  is_root (parent s) r = true /\ 0 <= r < Z.of_nat (length (parent s)).
Proof.
  intros H. apply root_chain in H as (vs & Hc & _).
  pose proof (chain_end _ _ _ _ Hc) as Hr. unfold is_root. rewrite Hr.
  split; [apply Z.eqb_refl | eauto using entry_Some].
Qed.

Lemma rep_valid s x :
  wf s = true -> 0 <= x < Z.of_nat (length (parent s)) -> exists r, rep s x = Some r.
Proof.
  intros Hwf Hx. apply wf_iff in Hwf as [_ HF]. destruct (HF x Hx) as (vs & r & Hc).
  exists r. eapply root_of_chain; eauto.
Qed.

(** What a call of [find] can do, on any index and at any depth. *)
Lemma find_sound s x d res s' :
  wf s = true -> find d x s = (res, s') ->
  wf s' = true /\ same_partition s s' /\
  match res with
  | Ok r => valid (length (parent s)) x /\ rep s (norm (length (parent s)) x) = Some r /\
            exists vs, chain (parent s) (norm (length (parent s)) x) vs r /\
                       s' = mkDS (compress (parent s) vs r) (weight s)
  | Raise IndexError => ~ valid (length (parent s)) x /\ s' = s
  | Raise RecursionError => (d <= length (parent s))%nat /\ s' = s
  end.
Proof.
  intros Hwf Hf. destruct s as [p w]. simpl parent in *. simpl weight in *.
  destruct (decide (valid (length p) x)) as [Hv | Hv].
  - pose proof Hwf as Hwf'. apply wf_iff in Hwf' as [Hlen HF]. simpl in Hlen, HF.
    destruct (HF _ (norm_range _ _ Hv)) as (vs & r & Hc).
    destruct (find_valid _ _ _ _ Hv Hc d w) as [H1 [H2 | H2]];
      rewrite H2 in Hf; injection Hf as <- <-.
    + destruct (root_ext p (compress p vs r)) as [HF' Hroot];
        [apply length_compress | exact HF | exact (compress_chain _ _ _ _ Hc) |].
      split; [|split].
      * apply wf_iff. simpl. now rewrite length_compress.
      * repeat split; simpl; [apply length_compress | exact Hroot |].
        exact (is_root_compress _ _ _ _ Hc).
      * split; [exact Hv|]. split; [exact (root_of_chain _ _ _ _ Hc)|]. eauto.
    + split; [exact Hwf|]. split; [apply same_partition_refl|]. split; [|reflexivity].
      destruct (le_lt_dec d (length p)) as [Hd | Hd]; [exact Hd|].
      pose proof (chain_length _ _ _ _ Hc). rewrite H1 in H2 by lia. discriminate.
  - destruct d as [|d].
    + simpl in Hf. injection Hf as <- <-.
      split; [exact Hwf|]. split; [apply same_partition_refl|]. split; [lia | reflexivity].
    + rewrite find_invalid in Hf by exact Hv. injection Hf as <- <-.
      split; [exact Hwf|]. split; [apply same_partition_refl|]. now split.
Qed.

(** With more depth than elements, [find] returns on every index Python
    accepts. *)
Lemma find_returns s x d :
  wf s = true -> valid (length (parent s)) x -> (length (parent s) < d)%nat ->
  exists r s', find d x s = (Ok r, s').
Proof.
  intros Hwf Hv Hd. destruct (find d x s) as [[r | []] s'] eqn:Hf; [eauto | |];
    destruct (find_sound _ _ _ _ _ Hwf Hf) as (_ & _ & H & _); [contradiction | lia].
Qed.

(** ** [union] and [is_connected] *)

Lemma union_raise_x v d x y s e s1 :
  find d x s = (Raise e, s1) -> union v d x y s = (Raise e, s1).
Proof. intros H. destruct v; unfold union, union_by_rank, union_by_size, bind; now rewrite H. Qed.

Lemma union_raise_y v d x y s rx s1 e s2 :
  find d x s = (Ok rx, s1) -> find d y s1 = (Raise e, s2) ->
  union v d x y s = (Raise e, s2).
Proof.
  intros H1 H2.
  destruct v; unfold union, union_by_rank, union_by_size, bind; now rewrite H1, H2.
Qed.

Lemma union_roots v d x y s rx s1 ry s2 :
  find d x s = (Ok rx, s1) -> find d y s1 = (Ok ry, s2) ->
  length (weight s2) = length (parent s2) ->
  0 <= rx < Z.of_nat (length (parent s2)) ->
  0 <= ry < Z.of_nat (length (parent s2)) ->
  union v d x y s =
  if rx =? ry then (Ok false, s2) else (Ok true, merge v s2 rx ry).
Proof.
  intros H1 H2 Hlen Hrx Hry.
  destruct (entry_is_Some (weight s2) rx) as [wx Hwx]; [lia|].
  destruct (entry_is_Some (weight s2) ry) as [wy Hwy]; [lia|].
  assert (getitem (weight s2) rx = Some wx) as Gx by (rewrite getitem_entry; [auto | lia]).
  assert (getitem (weight s2) ry = Some wy) as Gy by (rewrite getitem_entry; [auto | lia]).
  destruct v; unfold union, union_by_rank, union_by_size, bind; rewrite H1, H2;
    (destruct (rx =? ry); [reflexivity|]);
    unfold merge, weight_at, get_weight, set_parent, set_weight, ret;
    rewrite Gx, Gy, Hwx, Hwy; destruct (wx <? wy);
    repeat first [ rewrite Gx | rewrite Gy
                 | rewrite setitem_upd by (rewrite ?length_upd; lia)
                 | progress cbn [parent weight] ];
    try reflexivity.
  destruct (wy <? wx);
    repeat first [ rewrite Gx | rewrite Gy
                 | rewrite setitem_upd by (rewrite ?length_upd; lia)
                 | progress cbn [parent weight] ];
    reflexivity.
Qed.

Lemma parent_merge v s rx ry :
  parent (merge v s rx ry) = upd (parent s) (loser s rx ry) (survivor s rx ry).
Proof. unfold merge, loser, survivor. now destruct (_ <? _). Qed.

Lemma length_weight_merge v s rx ry :
  length (weight (merge v s rx ry)) = length (weight s).
Proof.
  unfold merge. destruct v; repeat (destruct (_ <? _)); simpl;
    rewrite ?length_upd; reflexivity.
Qed.

(** Merging two distinct roots: the elements of the loser's set now have the
    survivor as root, every other root stays. *)
Lemma merge_sound v s rx ry :
  wf s = true -> is_root (parent s) rx = true -> is_root (parent s) ry = true ->
  rx <> ry ->
  wf (merge v s rx ry) = true /\
  length (parent (merge v s rx ry)) = length (parent s) /\
  (forall u, rep (merge v s rx ry) u =
             match rep s u with
             | Some r => Some (if r =? loser s rx ry then survivor s rx ry else r)
             | None => None
             end) /\
  (forall u, is_root (parent (merge v s rx ry)) u =
             is_root (parent s) u && negb (u =? loser s rx ry)).
Proof.
  intros Hwf Hx Hy Hne. apply wf_iff in Hwf as [Hlen HF].
  assert (forall r, is_root (parent s) r = true -> entry (parent s) r = Some r) as Hent.
  { intros r. unfold is_root. destruct (entry (parent s) r); [|discriminate].
    intros E. apply Z.eqb_eq in E. now subst. }
  assert (loser s rx ry <> survivor s rx ry /\
          is_root (parent s) (loser s rx ry) = true /\
          is_root (parent s) (survivor s rx ry) = true) as (Hls & Hl & Hs).
  { unfold loser, survivor. destruct (_ <? _); auto. }
  destruct (root_link _ _ _ HF (Hent _ Hl) (Hent _ Hs) Hls) as [HF' Hrep].
  unfold rep. rewrite parent_merge. split; [|split; [|split]].
  - apply wf_iff. rewrite length_weight_merge, parent_merge, length_upd. auto.
  - apply length_upd.
  - exact Hrep.
  - intros u. apply is_root_link; auto.
Qed.

(** What a call of [union] can do, on any indices and at any depth: [s2] is
    the state after the two calls of [find]. *)
Lemma union_sound v d x y s res s' :
  wf s = true -> union v d x y s = (res, s') ->
  exists s2, wf s2 = true /\ same_partition s s2 /\
  match res with
  | Ok b =>
      valid (length (parent s)) x /\ valid (length (parent s)) y /\
      exists rx ry,
        rep s (norm (length (parent s)) x) = Some rx /\
        rep s (norm (length (parent s)) y) = Some ry /\
        b = negb (rx =? ry) /\
        s' = (if rx =? ry then s2 else merge v s2 rx ry) /\
        s2 = snd (find d y (snd (find d x s)))
  | Raise e =>
      s' = s2 /\
      match e with
      | IndexError => ~ valid (length (parent s)) x \/ ~ valid (length (parent s)) y
      | RecursionError => (d <= length (parent s))%nat
      end /\
      (~ valid (length (parent s)) x -> s' = s)
  end.
Proof.
  intros Hwf Hu.
  destruct (find d x s) as [[rx | e] s1] eqn:F1;
    destruct (find_sound _ _ _ _ _ Hwf F1) as (Hwf1 & Hsp1 & H1).
  - destruct H1 as (Hvx & Hrx & _).
    pose proof Hsp1 as (L1 & _ & R1 & _).
    destruct (find d y s1) as [[ry | e] s2] eqn:F2;
      destruct (find_sound _ _ _ _ _ Hwf1 F2) as (Hwf2 & Hsp2 & H2);
      rewrite L1, ?R1 in H2; exists s2;
      (split; [exact Hwf2|]); (split; [eapply same_partition_trans; eauto|]).
    + destruct H2 as (Hvy & Hry & _).
      pose proof Hsp2 as (L2 & _ & _ & _).
      destruct (rep_is_root _ _ _ Hrx) as [_ Hrrx].
      destruct (rep_is_root _ _ _ Hry) as [_ Hrry].
      pose proof Hwf2 as Hwf2'. apply wf_iff in Hwf2' as [Hlen2 _].
      rewrite (union_roots v _ _ _ _ _ _ _ _ F1 F2 Hlen2) in Hu by (rewrite L2, L1; auto).
      destruct (rx =? ry) eqn:E; injection Hu as <- <-;
        (split; [exact Hvx|]); (split; [exact Hvy|]); exists rx, ry;
        rewrite E; simpl; rewrite F2; auto 6.
    + rewrite (union_raise_y v _ _ _ _ _ _ _ _ F1 F2) in Hu. injection Hu as <- <-.
      split; [reflexivity|]. split; [|contradiction].
      destruct e; [right|]; apply H2.
  - rewrite (union_raise_x v _ _ y _ _ _ F1) in Hu. injection Hu as <- <-.
    exists s1. split; [exact Hwf1|]. split; [exact Hsp1|]. split; [reflexivity|].
    destruct e; destruct H1 as [H1 ->]; auto.
Qed.

(** What a call of [is_connected] can do. *)
Lemma is_connected_sound d x y s res s' :
  wf s = true -> is_connected d x y s = (res, s') ->
  wf s' = true /\ same_partition s s' /\
  match res with
  | Ok b =>
      valid (length (parent s)) x /\ valid (length (parent s)) y /\
      exists rx ry,
        rep s (norm (length (parent s)) x) = Some rx /\
        rep s (norm (length (parent s)) y) = Some ry /\
        b = (rx =? ry)
  | Raise e =>
      match e with
      | IndexError => ~ valid (length (parent s)) x \/ ~ valid (length (parent s)) y
      | RecursionError => (d <= length (parent s))%nat
      end /\
      (~ valid (length (parent s)) x -> s' = s)
  end.
Proof.
  intros Hwf Hu. unfold is_connected, bind, ret in Hu.
  destruct (find d x s) as [[rx | e] s1] eqn:F1;
    destruct (find_sound _ _ _ _ _ Hwf F1) as (Hwf1 & Hsp1 & H1).
  - destruct H1 as (Hvx & Hrx & _).
    pose proof Hsp1 as (L1 & _ & R1 & _).
    destruct (find d y s1) as [[ry | e] s2] eqn:F2;
      destruct (find_sound _ _ _ _ _ Hwf1 F2) as (Hwf2 & Hsp2 & H2);
      rewrite L1, ?R1 in H2; injection Hu as <- <-;
      (split; [exact Hwf2|]); (split; [eapply same_partition_trans; eauto|]).
    + destruct H2 as (Hvy & Hry & _). eauto 10.
    + split; [|contradiction]. destruct e; [right|]; apply H2.
  - injection Hu as <- <-. split; [exact Hwf1|]. split; [exact Hsp1|].
    destruct e; destruct H1 as [H1 ->]; auto.
Qed.

(** ** Every call coarsens the partition *)

Lemma coarser_refl s : coarser s s.
Proof. split; eauto. Qed.

Lemma coarser_trans s1 s2 s3 : coarser s1 s2 -> coarser s2 s3 -> coarser s1 s3.
Proof.
  intros [L1 H1] [L2 H2]. split; [congruence|]. intros u v r Hu Hv.
  destruct (H1 _ _ _ Hu Hv) as (r' & Hu' & Hv'). eauto.
Qed.

Lemma same_partition_coarser s s' : same_partition s s' -> coarser s s'.
Proof.
  intros (L & _ & R & _). split; [exact L|]. intros u v r Hu Hv.
  exists r. now rewrite !R.
Qed.

Lemma merge_coarser v s rx ry :
  wf s = true -> is_root (parent s) rx = true -> is_root (parent s) ry = true ->
  rx <> ry -> coarser s (merge v s rx ry).
Proof.
  intros Hwf Hx Hy Hne.
  destruct (merge_sound v _ _ _ Hwf Hx Hy Hne) as (_ & L & R & _).
  split; [exact L|]. intros a b r Ha Hb. rewrite !R, Ha, Hb. eauto.
Qed.

Lemma exec_sound v d c s :
  wf s = true -> wf (exec v d c s) = true /\ coarser s (exec v d c s).
Proof.
  intros Hwf. destruct c as [x | x y | x y]; simpl.
  - destruct (find d x s) as [res s'] eqn:F.
    destruct (find_sound _ _ _ _ _ Hwf F) as (Hwf' & Hsp & _).
    auto using same_partition_coarser.
  - destruct (union v d x y s) as [res s'] eqn:U.
    destruct (union_sound _ _ _ _ _ _ _ Hwf U) as (s2 & Hwf2 & Hsp & H).
    destruct res as [b | e]; simpl.
    + destruct H as (_ & _ & rx & ry & Hrx & Hry & _ & -> & _).
      destruct (Z.eqb_spec rx ry) as [_ | Hne]; [auto using same_partition_coarser|].
      pose proof Hsp as (_ & _ & R & _).
      rewrite <- R in Hrx, Hry.
      destruct (rep_is_root _ _ _ Hrx) as [Hx _], (rep_is_root _ _ _ Hry) as [Hy _].
      split; [apply merge_sound; auto|].
      eapply coarser_trans; [apply same_partition_coarser; eauto|].
      now apply merge_coarser.
    + destruct H as (-> & _). auto using same_partition_coarser.
  - destruct (is_connected d x y s) as [res s'] eqn:F.
    destruct (is_connected_sound _ _ _ _ _ _ Hwf F) as (Hwf' & Hsp & _).
    auto using same_partition_coarser.
Qed.

Lemma run_sound v d cs s :
  wf s = true -> wf (run v d cs s) = true /\ coarser s (run v d cs s).
Proof.
  revert s. induction cs as [|c cs IH]; intros s Hwf; simpl.
  - auto using coarser_refl.
  - destruct (exec_sound v d c s Hwf) as [Hwf' Hc].
    destruct (IH _ Hwf') as [Hwf'' Hc']. eauto using coarser_trans.
Qed.

Lemma length_init v size : length (parent (init v size)) = Z.to_nat size.
Proof. simpl. now rewrite length_map, length_seq. Qed.

Lemma entry_init v size x :
  0 <= x < Z.of_nat (Z.to_nat size) -> entry (parent (init v size)) x = Some x.
Proof.
  intros Hx. unfold entry. destruct (Z.leb_spec 0 x); [|lia]. simpl.
  rewrite list_lookup_fmap, lookup_seq_lt by lia. simpl. f_equal. lia.
Qed.

Lemma wf_init v size : wf (init v size) = true.
Proof.
  apply wf_iff. split.
  - simpl. now rewrite length_replicate, length_map, length_seq.
  - intros x Hx. rewrite length_init in Hx. exists [], x. constructor.
    now apply entry_init.
Qed.

(** Every object built by [__init__] and used through its methods is
    well formed. *)
Lemma wf_run v d cs size : wf (run v d cs (init v size)) = true.
Proof. apply run_sound, wf_init. Qed.

(** ** What the calls answer *)

Lemma coarser_same_set s s' x y :
  coarser s s' -> same_set s x y = true -> same_set s' x y = true.
Proof.
  intros [_ H]. unfold same_set.
  destruct (rep s x) as [a|] eqn:Ex; [|discriminate].
  destruct (rep s y) as [b|] eqn:Ey; [|discriminate].
  intros E. apply Z.eqb_eq in E. subst b.
  destruct (H _ _ _ Ex Ey) as (r' & -> & ->). apply Z.eqb_refl.
Qed.

Lemma same_partition_same_set s s' x y :
  same_partition s s' -> same_set s' x y = same_set s x y.
Proof. intros (_ & _ & R & _). unfold same_set. now rewrite !R. Qed.

Lemma is_connected_returns s x y d :
  wf s = true -> valid (length (parent s)) x -> valid (length (parent s)) y ->
  (length (parent s) < d)%nat ->
  exists s', is_connected d x y s =
               (Ok (same_set s (norm (length (parent s)) x) (norm (length (parent s)) y)), s') /\
             wf s' = true /\ same_partition s s'.
Proof.
  intros Hwf Hx Hy Hd. destruct (is_connected d x y s) as [res s'] eqn:E.
  destruct (is_connected_sound _ _ _ _ _ _ Hwf E) as (Hwf' & Hsp & H).
  exists s'. split; [|auto]. destruct res as [b | []].
  - destruct H as (_ & _ & rx & ry & Hrx & Hry & ->).
    unfold same_set. now rewrite Hrx, Hry.
  - destruct H as [[H | H] _]; contradiction.
  - destruct H as [H _]. lia.
Qed.

Lemma union_returns v s x y d :
  wf s = true -> valid (length (parent s)) x -> valid (length (parent s)) y ->
  (length (parent s) < d)%nat ->
  exists b s', union v d x y s = (Ok b, s').
Proof.
  intros Hwf Hx Hy Hd. destruct (union v d x y s) as [[b | []] s'] eqn:E; [eauto | |];
    destruct (union_sound _ _ _ _ _ _ _ Hwf E) as (s2 & _ & _ & _ & H & _);
    [destruct H; contradiction | lia].
Qed.

(** After a call of [union] that returned, its two arguments are in one set. *)
Lemma union_connects v s x y d b s' :
  wf s = true -> union v d x y s = (Ok b, s') ->
  wf s' = true /\ coarser s s' /\
  same_set s' (norm (length (parent s)) x) (norm (length (parent s)) y) = true.
Proof.
  intros Hwf E. pose proof (exec_sound v d (Union x y) s Hwf) as [Hwf' Hco].
  simpl in Hwf', Hco. rewrite E in Hwf', Hco. simpl in Hwf', Hco.
  split; [exact Hwf'|]. split; [exact Hco|].
  destruct (union_sound _ _ _ _ _ _ _ Hwf E)
    as (s2 & Hwf2 & Hsp & _ & _ & rx & ry & Hrx & Hry & _ & -> & _).
  pose proof Hsp as (_ & _ & R & _). unfold same_set.
  destruct (Z.eqb_spec rx ry) as [-> | Hne].
  - rewrite !R, Hrx, Hry. apply Z.eqb_refl.
  - rewrite <- R in Hrx, Hry.
    destruct (rep_is_root _ _ _ Hrx) as [Hx _], (rep_is_root _ _ _ Hry) as [Hy _].
    destruct (merge_sound v _ _ _ Hwf2 Hx Hy Hne) as (_ & _ & R' & _).
    rewrite !R', Hrx, Hry. unfold loser, survivor.
    destruct (_ <? _); rewrite Z.eqb_refl;
      [destruct (Z.eqb_spec ry rx) | destruct (Z.eqb_spec rx ry)];
      try congruence; apply Z.eqb_refl.
Qed.

(** [union] on two elements of different sets: the state after the two
    calls of [find], then the merge of the two roots. *)
Lemma union_distinct_roots v s x y d rx ry :
  wf s = true ->
  0 <= x < Z.of_nat (length (parent s)) ->
  0 <= y < Z.of_nat (length (parent s)) ->
  (length (parent s) < d)%nat ->
  rep s x = Some rx -> rep s y = Some ry -> rx <> ry ->
  exists s2,
    wf s2 = true /\ same_partition s s2 /\
    is_root (parent s2) rx = true /\ is_root (parent s2) ry = true /\
    union v d x y s = (Ok true, merge v s2 rx ry).
Proof.
  intros Hwf Hx Hy Hd Hrx Hry Hne.
  assert (valid (length (parent s)) x) as Hvx by (unfold valid; lia).
  assert (valid (length (parent s)) y) as Hvy by (unfold valid; lia).
  destruct (union_returns v _ _ _ _ Hwf Hvx Hvy Hd) as (b & s' & E).
  destruct (union_sound _ _ _ _ _ _ _ Hwf E)
    as (s2 & Hwf2 & Hsp & _ & _ & rx' & ry' & Hrx' & Hry' & -> & -> & _).
  rewrite norm_nonneg in Hrx', Hry' by lia.
  assert (rx' = rx) by congruence. assert (ry' = ry) by congruence. subst rx' ry'.
  destruct (Z.eqb_spec rx ry) as [? | _]; [contradiction|].
  exists s2. pose proof Hsp as (_ & _ & R & _). rewrite <- R in Hrx, Hry.
  destruct (rep_is_root _ _ _ Hrx) as [Rx _], (rep_is_root _ _ _ Hry) as [Ry _].
  auto 6.
Qed.

Lemma is_root_entry p r :
  is_root p r = true -> entry p r = Some r /\ 0 <= r < Z.of_nat (length p).
Proof.
  unfold is_root. destruct (entry p r) as [y|] eqn:E; [|discriminate].
  intros H. apply Z.eqb_eq in H. subst y. eauto using entry_Some.
Qed.

Lemma same_set_refl s x :
  wf s = true -> 0 <= x < Z.of_nat (length (parent s)) -> same_set s x x = true.
Proof.
  intros Hwf Hx. destruct (rep_valid _ _ Hwf Hx) as [r Hr].
  unfold same_set. rewrite Hr. apply Z.eqb_refl.
Qed.

Lemma same_set_sym s x y : same_set s x y = same_set s y x.
Proof.
  unfold same_set. destruct (rep s x), (rep s y); auto using Z.eqb_sym.
Qed.

Lemma same_set_trans s x y z :
  same_set s x y = true -> same_set s y z = true -> same_set s x z = true.
Proof.
  unfold same_set. destruct (rep s x), (rep s y), (rep s z); try discriminate.
  rewrite !Z.eqb_eq. congruence.
Qed.

Lemma is_connected_answer s a b d :
  wf s = true -> (length (parent s) < d)%nat ->
  fst (is_connected d a b s) =
  if bool_decide (valid (length (parent s)) a) && bool_decide (valid (length (parent s)) b)
  then Ok (same_set s (norm (length (parent s)) a) (norm (length (parent s)) b))
  else Raise IndexError.
Proof.
  intros Hwf Hd. destruct (is_connected d a b s) as [res s'] eqn:E.
  destruct (is_connected_sound _ _ _ _ _ _ Hwf E) as (_ & _ & H). simpl.
  destruct res as [r | []].
  - destruct H as (Ha & Hb & rx & ry & Hrx & Hry & ->).
    rewrite !bool_decide_eq_true_2 by assumption. simpl.
    unfold same_set. now rewrite Hrx, Hry.
  - destruct H as [[H | H] _]; rewrite (bool_decide_eq_false_2 _ H);
      [|rewrite andb_false_r]; reflexivity.
  - destruct H as [H _]. lia.
Qed.

Lemma is_connected_same_partition s s' a b d :
  wf s = true -> wf s' = true -> same_partition s s' ->
  (length (parent s) < d)%nat ->
  fst (is_connected d a b s') = fst (is_connected d a b s).
Proof.
  intros Hwf Hwf' Hsp Hd. pose proof Hsp as (L & _).
  rewrite !is_connected_answer by (auto; lia).
  now rewrite L, (same_partition_same_set _ _ _ _ Hsp).
Qed.

Lemma find_answer s x d :
  wf s = true -> valid (length (parent s)) x -> (length (parent s) < d)%nat ->
  fst (find d x s) = match rep s (norm (length (parent s)) x) with
                     | Some r => Ok r
                     | None => Raise IndexError
                     end.
Proof.
  intros Hwf Hx Hd. destruct (find_returns _ _ _ Hwf Hx Hd) as (r & s' & F).
  destruct (find_sound _ _ _ _ _ Hwf F) as (_ & _ & _ & Hr & _).
  now rewrite F, Hr.
Qed.

Lemma run_no_union v d cs s :
  wf s = true -> no_union cs = true ->
  wf (run v d cs s) = true /\ same_partition s (run v d cs s).
Proof.
  revert s. induction cs as [|c cs IH]; intros s Hwf Hn; simpl in *.
  - auto using same_partition_refl.
  - apply andb_true_iff in Hn as [Hc Hn].
    assert (wf (exec v d c s) = true /\ same_partition s (exec v d c s)) as [Hwf' Hsp].
    { destruct c as [x | x y | x y]; simpl; [|discriminate|].
      - destruct (find d x s) as [res s'] eqn:F.
        destruct (find_sound _ _ _ _ _ Hwf F) as (? & ? & _). auto.
      - destruct (is_connected d x y s) as [res s'] eqn:F.
        destruct (is_connected_sound _ _ _ _ _ _ Hwf F) as (? & ? & _). auto. }
    destruct (IH _ Hwf' Hn) as [Hwf'' Hsp']. eauto using same_partition_trans.
Qed.

Lemma length_run v d cs size :
  length (parent (run v d cs (init v size))) = Z.to_nat size.
Proof.
  destruct (run_sound v d cs _ (wf_init v size)) as [_ [L _]].
  now rewrite L, length_init.
Qed.

Lemma union_first_find v d x x' y s :
  find d x s = find d x' s -> union v d x y s = union v d x' y s.
Proof.
  intros H. destruct v; unfold union, union_by_rank, union_by_size, bind; now rewrite H.
Qed.

(** ** Sizes *)

Lemma length_filter_split (P Q R : Z -> Prop)
    `{!forall x, Decision (P x)} `{!forall x, Decision (Q x)} `{!forall x, Decision (R x)}
    (l : list Z) :
  (forall x, P x <-> Q x \/ R x) -> (forall x, Q x -> R x -> False) ->
  length (filter P l) = (length (filter Q l) + length (filter R l))%nat.
Proof.
  intros HP Hex. induction l as [|a l IH]; [reflexivity|].
  rewrite !filter_cons.
  destruct (decide (P a)) as [p | p], (decide (Q a)) as [q | q], (decide (R a)) as [r | r];
    simpl; rewrite IH; try lia.
  - destruct (Hex a q r).
  - apply HP in p as [? | ?]; contradiction.
  - destruct p. apply HP. auto.
  - destruct p. apply HP. auto.
  - destruct p. apply HP. auto.
Qed.

Lemma length_filter_eq_one (l : list Z) r :
  NoDup l -> r ∈ l -> length (filter (fun x => x = r) l) = 1%nat.
Proof.
  induction 1 as [|a l Ha Hnd IH]; intros Hr; [inversion Hr|].
  rewrite filter_cons. destruct (decide (a = r)) as [-> | Hne]; simpl.
  - f_equal. destruct (filter (fun x => x = r) l) as [|b k] eqn:E; [reflexivity|].
    assert (b ∈ filter (fun x => x = r) l) as Hb by (rewrite E; now left).
    apply list_elem_of_filter in Hb as [-> Hb]. contradiction.
  - apply IH. apply elem_of_cons in Hr as [-> | Hr]; [contradiction | exact Hr].
Qed.

Lemma sumZ_add {A} (g h : A -> Z) (l : list A) :
  sumZ (map (fun r => g r + h r) l) = sumZ (map g l) + sumZ (map h l).
Proof. induction l as [|a l IH]; simpl; [reflexivity|]. unfold sumZ in *. simpl. lia. Qed.

Lemma sumZ_zero {A} (l : list A) : sumZ (map (fun _ => 0) l) = 0.
Proof. induction l as [|a l IH]; simpl; [reflexivity|]. exact IH. Qed.

Lemma sumZ_indicator (l : list Z) (r0 : Z) :
  NoDup l -> r0 ∈ l ->
  sumZ (map (fun r => if decide (r0 = r) then 1 else 0) l) = 1.
Proof.
  induction 1 as [|a l Ha Hnd IH]; intros Hr; [inversion Hr|].
  unfold sumZ in *. simpl. destruct (decide (r0 = a)) as [-> | Hne].
  - assert (foldr Z.add 0 (map (fun r => if decide (a = r) then 1 else 0) l) = 0) as ->; [|lia].
    clear IH Hnd Hr. induction l as [|b l IH]; simpl; [reflexivity|].
    destruct (decide (a = b)) as [-> | _]; [destruct Ha; now left|].
    rewrite IH; [reflexivity|]. intros ?. apply Ha. now right.
  - rewrite IH; [lia|]. apply elem_of_cons in Hr as [? | Hr]; [contradiction | exact Hr].
Qed.

(** Counting the elements root by root counts every element once. *)
Lemma double_count (f : Z -> option Z) (R X : list Z) :
  NoDup R -> (forall x, x ∈ X -> exists r, r ∈ R /\ f x = Some r) ->
  sumZ (map (fun r => Z.of_nat (length (filter (fun x => f x = Some r) X))) R) =
  Z.of_nat (length X).
Proof.
  intros Hnd. induction X as [|a X IH]; intros HX.
  - simpl. apply sumZ_zero.
  - destruct (HX a) as (r0 & Hr0 & Ha); [now left|].
    transitivity (sumZ (map (fun r => (if decide (r0 = r) then 1 else 0) +
                     Z.of_nat (length (filter (fun x => f x = Some r) X))) R)).
    + f_equal. apply map_ext. intros r. rewrite filter_cons, Ha.
      destruct (decide (Some r0 = Some r)) as [E | E], (decide (r0 = r)) as [E' | E'];
        simpl; try lia; congruence.
    + rewrite sumZ_add, IH by (intros; apply HX; now right).
      rewrite (sumZ_indicator R r0 Hnd Hr0). simpl length. lia.
Qed.

Lemma entry_weight_init v size r :
  0 <= r < Z.of_nat (Z.to_nat size) ->
  entry (weight (init v size)) r = Some (match v with ByRank => 0 | BySize => 1 end).
Proof.
  intros Hr. unfold entry. destruct (Z.leb_spec 0 r); [|lia]. simpl.
  apply lookup_replicate_2. lia.
Qed.

Lemma rep_init v size x :
  rep (init v size) x = if (0 <=? x) && (x <? Z.of_nat (Z.to_nat size)) then Some x else None.
Proof.
  destruct (Z.leb_spec 0 x), (Z.ltb_spec x (Z.of_nat (Z.to_nat size))); simpl;
    try (apply root_out; rewrite length_init; lia).
  apply (root_of_chain _ _ []). constructor. apply entry_init. lia.
Qed.

Lemma size_ok_init size : size_ok (init BySize size).
Proof.
  intros r Hr. apply is_root_entry in Hr as [_ Hr]. rewrite length_init in Hr.
  rewrite entry_weight_init by exact Hr. f_equal. unfold members.
  rewrite (list_filter_iff _ (fun x => x = r)).
  - rewrite length_filter_eq_one; [reflexivity | apply NoDup_indices |].
    apply elem_of_indices. now rewrite length_init.
  - intros x. rewrite rep_init.
    destruct (Z.leb_spec 0 x), (Z.ltb_spec x (Z.of_nat (Z.to_nat size))); simpl;
      split; intros E; try discriminate; try congruence; lia.
Qed.

Lemma members_same_partition s s' r :
  same_partition s s' -> members s' r = members s r.
Proof.
  intros (L & _ & R & _). unfold members. rewrite L. f_equal. f_equal.
  apply list_filter_iff. intros x. now rewrite R.
Qed.

Lemma size_ok_same_partition s s' : same_partition s s' -> size_ok s -> size_ok s'.
Proof.
  intros Hsp H r Hr. pose proof Hsp as (_ & W & _ & I).
  rewrite W, (members_same_partition _ _ _ Hsp). apply H. now rewrite <- I.
Qed.

(** The members of the surviving root are those of the two merged roots;
    the members of every other root are the same. *)
Lemma members_merge v s rx ry r :
  wf s = true -> is_root (parent s) rx = true -> is_root (parent s) ry = true ->
  rx <> ry -> r <> loser s rx ry ->
  members (merge v s rx ry) r =
  if r =? survivor s rx ry then members s rx + members s ry else members s r.
Proof.
  intros Hwf Rx Ry Hne Hr.
  destruct (merge_sound v _ _ _ Hwf Rx Ry Hne) as (_ & L & R & _).
  assert (loser s rx ry <> survivor s rx ry) as Hls
    by (unfold loser, survivor; destruct (_ <? _); auto).
  unfold members. rewrite L. destruct (Z.eqb_spec r (survivor s rx ry)) as [-> | Hrs].
  - rewrite <- Nat2Z.inj_add. f_equal.
    rewrite (length_filter_split _ (fun x => rep s x = Some rx) (fun x => rep s x = Some ry));
      [reflexivity | | congruence].
    intros x. rewrite R. destruct (rep s x) as [q|]; [|intuition discriminate].
    unfold loser, survivor in *.
    destruct (_ <? _), (Z.eqb_spec q rx), (Z.eqb_spec q ry);
      split; intros E; try destruct E as [E | E]; try congruence;
        first [left; congruence | right; congruence].
  - f_equal. f_equal. apply list_filter_iff. intros x. rewrite R.
    destruct (rep s x) as [q|]; [|reflexivity].
    destruct (Z.eqb_spec q (loser s rx ry)); split; intros E; congruence.
Qed.

Lemma size_ok_merge s rx ry :
  wf s = true -> is_root (parent s) rx = true -> is_root (parent s) ry = true ->
  rx <> ry -> size_ok s -> size_ok (merge BySize s rx ry).
Proof.
  intros Hwf Rx Ry Hne H r Hr.
  destruct (merge_sound BySize _ _ _ Hwf Rx Ry Hne) as (_ & _ & _ & I).
  rewrite I in Hr. apply andb_true_iff in Hr as [Hr Hrl].
  apply negb_true_iff, Z.eqb_neq in Hrl.
  rewrite (members_merge BySize) by auto.
  pose proof (H _ Rx) as Wx. pose proof (H _ Ry) as Wy. pose proof (H _ Hr) as Wr.
  apply is_root_entry in Rx as [_ Hrx], Ry as [_ Hry].
  apply wf_iff in Hwf as [Hlen _].
  unfold merge, loser, survivor, weight_at in *. rewrite Wx, Wy in *.
  destruct (members s rx <? members s ry); simpl.
  - destruct (Z.eqb_spec r ry) as [-> | Hr'].
    + rewrite entry_upd_eq by lia. f_equal. lia.
    + rewrite entry_upd_ne by lia. exact Wr.
  - destruct (Z.eqb_spec r rx) as [-> | Hr'].
    + rewrite entry_upd_eq by lia. reflexivity.
    + rewrite entry_upd_ne by lia. exact Wr.
Qed.

Lemma exec_size_ok d c s :
  wf s = true -> size_ok s -> size_ok (exec BySize d c s).
Proof.
  intros Hwf H. destruct c as [x | x y | x y]; cbn [exec].
  - destruct (find d x s) as [res s'] eqn:F.
    destruct (find_sound _ _ _ _ _ Hwf F) as (_ & Hsp & _).
    eauto using size_ok_same_partition.
  - destruct (union BySize d x y s) as [res s'] eqn:U.
    destruct (union_sound _ _ _ _ _ _ _ Hwf U) as (s2 & Hwf2 & Hsp & H').
    pose proof (size_ok_same_partition _ _ Hsp H) as H2.
    destruct res as [b | e]; simpl.
    + destruct H' as (_ & _ & rx & ry & Hrx & Hry & _ & -> & _).
      destruct (Z.eqb_spec rx ry) as [_ | Hne]; [exact H2|].
      pose proof Hsp as (_ & _ & R & _). rewrite <- R in Hrx, Hry.
      destruct (rep_is_root _ _ _ Hrx) as [Hx _], (rep_is_root _ _ _ Hry) as [Hy _].
      now apply size_ok_merge.
    + destruct H' as (-> & _). exact H2.
  - destruct (is_connected d x y s) as [res s'] eqn:F.
    destruct (is_connected_sound _ _ _ _ _ _ Hwf F) as (_ & Hsp & _).
    eauto using size_ok_same_partition.
Qed.

Lemma run_size_ok d cs s :
  wf s = true -> size_ok s -> size_ok (run BySize d cs s).
Proof.
  revert s. induction cs as [|c cs IH]; intros s Hwf H; simpl; [exact H|].
  apply IH; [now apply exec_sound | now apply exec_size_ok].
Qed.

Lemma root_weights_total s :
  wf s = true -> size_ok s -> root_weights s = Z.of_nat (length (parent s)).
Proof.
  intros Hwf H. unfold root_weights.
  transitivity (Z.of_nat (length (indices (length (parent s)))));
    [|now rewrite length_indices].
  rewrite <- (double_count (rep s) (roots s) (indices (length (parent s)))).
  - f_equal. apply map_ext_in. intros r Hr.
    apply list_elem_of_In, list_elem_of_filter in Hr as [Hr _].
    unfold weight_at. now rewrite (H _ Hr).
  - apply NoDup_filter, NoDup_indices.
  - intros x Hx. apply elem_of_indices in Hx.
    destruct (rep_valid _ _ Hwf Hx) as [r Hr]. exists r. split; [|exact Hr].
    destruct (rep_is_root _ _ _ Hr) as [Hroot Hrange].
    apply list_elem_of_filter. split; [exact Hroot | now apply elem_of_indices].
Qed.

(** * The claims *)

(** C1.  On a well-formed object of size N and an index x in [0, N),
    [find x] follows the parent chain from x through the nodes [vs] (fewer
    than N of them) to the root [r], where parent[r] == r.  Given one level
    of recursion per node of the chain, so at most N, it returns [r] and
    leaves every visited node pointing at [r]: the new [parent] is
    [compress (parent s) vs r], which holds [r] at every node of the chain
    and is the old list everywhere else; the weights are untouched. *)
Theorem find_path_compression s x :
  wf s = true ->
  0 <= x < Z.of_nat (length (parent s)) ->
  exists vs r,
    chain (parent s) x vs r /\
    (length vs < length (parent s))%nat /\
    (forall d, (length vs < d)%nat ->
               find d x s = (Ok r, mkDS (compress (parent s) vs r) (weight s))) /\
    (forall v, v ∈ vs ++ [r] -> entry (compress (parent s) vs r) v = Some r) /\
    (forall u, u ∉ vs -> entry (compress (parent s) vs r) u = entry (parent s) u).
Proof.
  intros Hwf Hx. pose proof Hwf as Hwf'. apply wf_iff in Hwf' as [_ HF].
  destruct (HF x Hx) as (vs & r & Hc). exists vs, r.
  pose proof (chain_length _ _ _ _ Hc) as Hl.
  pose proof (chain_in_range _ _ _ _ Hc) as Hr.
  assert (forall v, v ∈ vs -> 0 <= v < Z.of_nat (length (parent s))) as Hvs.
  { intros v Hv. apply Hr, elem_of_app. now left. }
  split; [exact Hc|]. split; [exact Hl|]. split; [|split].
  - intros d Hd. destruct s as [p w]. now apply (find_chain _ _ _ _ Hc).
  - intros v Hv. apply elem_of_app in Hv as [Hv | Hv].
    + now apply entry_compress_in.
    + apply list_elem_of_singleton in Hv. subst v.
      pose proof (chain_NoDup _ _ _ _ Hc) as Hnd.
      rewrite entry_compress_notin; [eauto using chain_end | intros; now apply Hvs |].
      apply NoDup_app in Hnd as (_ & Hnd & _). intros Hin.
      apply (Hnd _ Hin). now left.
  - intros u Hu. apply entry_compress_notin; [intros; now apply Hvs | exact Hu].
Qed.

Lemma find_path_compression_witness :
  let s := run ByRank 10 [Union 0 1; Union 2 3; Union 0 2] (init ByRank 4) in
  exists vs r,
    chain (parent s) 3 vs r /\
    (length vs < length (parent s))%nat /\
    (forall d, (length vs < d)%nat ->
               find d 3 s = (Ok r, mkDS (compress (parent s) vs r) (weight s))) /\
    (forall v, v ∈ vs ++ [r] -> entry (compress (parent s) vs r) v = Some r) /\
    (forall u, u ∉ vs -> entry (compress (parent s) vs r) u = entry (parent s) u).
Proof.
  intros s. apply (find_path_compression s 3); [reflexivity | simpl; lia].
Defined.

(** C2, as stated, fails: on the object reached by union(0,1), union(2,3),
    union(0,2) over four elements, 3 and 0 are already in one set, and
    union(3, 0) returns false, yet its call of find(3) has rewritten
    parent[3] from 2 to 0. *)
Lemma union_same_set_changes_parent :
  let s := run ByRank 5 [Union 0 1; Union 2 3; Union 0 2] (init ByRank 4) in
  s = mkDS [0; 0; 0; 2] [2; 0; 1; 0] /\
  rep s 3 = rep s 0 /\
  union ByRank 5 3 0 s = (Ok false, mkDS [0; 0; 0; 0] [2; 0; 1; 0]) /\
  snd (union ByRank 5 3 0 s) <> s.
Proof. repeat split. discriminate. Qed.

(** C2, amended.  [union x y] on valid indices first calls [find x] and
    [find y], which leaves the state [s2]: the same weights, roots and
    partition as before, [parent] path-compressed.  When the two roots are
    equal it returns false in that state.  Otherwise it returns true and the
    two trees are one: the elements whose root was [rx] or [ry] all have the
    same root afterwards, one of [rx] and [ry], and every other element keeps
    its root. *)
Theorem union_merges v s x y d :
  wf s = true ->
  0 <= x < Z.of_nat (length (parent s)) ->
  0 <= y < Z.of_nat (length (parent s)) ->
  (length (parent s) < d)%nat ->
  exists rx ry s2,
    rep s x = Some rx /\ rep s y = Some ry /\
    s2 = snd (find d y (snd (find d x s))) /\ same_partition s s2 /\
    (rx = ry -> union v d x y s = (Ok false, s2)) /\
    (rx <> ry ->
     exists s' r',
       union v d x y s = (Ok true, s') /\ wf s' = true /\ (r' = rx \/ r' = ry) /\
       forall u, rep s' u =
                 match rep s u with
                 | Some r => Some (if (r =? rx) || (r =? ry) then r' else r)
                 | None => None
                 end).
Proof.
  intros Hwf Hx Hy Hd.
  assert (valid (length (parent s)) x) as Hvx by (unfold valid; lia).
  assert (valid (length (parent s)) y) as Hvy by (unfold valid; lia).
  destruct (union_returns v _ _ _ _ Hwf Hvx Hvy Hd) as (b & s' & E).
  destruct (union_sound _ _ _ _ _ _ _ Hwf E)
    as (s2 & Hwf2 & Hsp & _ & _ & rx & ry & Hrx & Hry & -> & -> & Hs2).
  rewrite norm_nonneg in Hrx, Hry by lia.
  exists rx, ry, s2. repeat (split; [assumption|]).
  pose proof Hsp as (_ & _ & R & _).
  split; intros Hne.
  - subst ry. now rewrite Z.eqb_refl in E.
  - destruct (Z.eqb_spec rx ry) as [? | _]; [contradiction|].
    exists (merge v s2 rx ry), (survivor s2 rx ry). split; [exact E|].
    pose proof Hrx as Hrx'. pose proof Hry as Hry'. rewrite <- R in Hrx', Hry'.
    destruct (rep_is_root _ _ _ Hrx') as [Rx _], (rep_is_root _ _ _ Hry') as [Ry _].
    destruct (merge_sound v _ _ _ Hwf2 Rx Ry Hne) as (Hwf' & _ & R' & _).
    split; [exact Hwf'|]. split.
    + unfold survivor. destruct (_ <? _); auto.
    + intros u. rewrite R', R. destruct (rep s u) as [r|]; [|reflexivity].
      f_equal. unfold loser, survivor.
      destruct (_ <? _), (Z.eqb_spec r rx), (Z.eqb_spec r ry); simpl; congruence.
Qed.

Lemma union_merges_witness :
  let s := init BySize 3 in
  exists rx ry s2,
    rep s 0 = Some rx /\ rep s 1 = Some ry /\
    s2 = snd (find 4 1 (snd (find 4 0 s))) /\ same_partition s s2 /\
    (rx = ry -> union BySize 4 0 1 s = (Ok false, s2)) /\
    (rx <> ry ->
     exists s' r',
       union BySize 4 0 1 s = (Ok true, s') /\ wf s' = true /\ (r' = rx \/ r' = ry) /\
       forall u, rep s' u =
                 match rep s u with
                 | Some r => Some (if (r =? rx) || (r =? ry) then r' else r)
                 | None => None
                 end).
Proof.
  intros s.
  apply (union_merges BySize s 0 1 4); [reflexivity | simpl; lia | simpl; lia | simpl; lia].
Defined.

(** C3, as stated, fails: over three elements union(-1, 0) does not raise.
    It returns true and has merged element 2 with element 0, in both
    variants. *)
Lemma union_negative_index_no_error :
  union ByRank 5 (-1) 0 (init ByRank 3) = (Ok true, mkDS [2; 1; 2] [0; 0; 1]) /\
  union BySize 5 (-1) 0 (init BySize 3) = (Ok true, mkDS [2; 1; 2] [1; 1; 2]) /\
  snd (union ByRank 5 (-1) 0 (init ByRank 3)) <> init ByRank 3 /\
  snd (union BySize 5 (-1) 0 (init BySize 3)) <> init BySize 3.
Proof. repeat split; discriminate. Qed.

(** C3, amended.  An index [x] with [x < -N] or [N <= x] makes every method
    raise Python's [IndexError].  [find x] leaves the state as it was, and so
    do [union x y] and [is_connected x y], whose first index is the bad one.
    When the first index [y] is accepted and the second one is bad,
    [find y] has run before the failure: the state is the one [find y]
    leaves, with the same weights, roots and partition. *)
Theorem index_error v s d x y :
  wf s = true ->
  (length (parent s) < d)%nat ->
  x < - Z.of_nat (length (parent s)) \/ Z.of_nat (length (parent s)) <= x ->
  find d x s = (Raise IndexError, s) /\
  union v d x y s = (Raise IndexError, s) /\
  is_connected d x y s = (Raise IndexError, s) /\
  (valid (length (parent s)) y ->
   same_partition s (snd (find d y s)) /\
   union v d y x s = (Raise IndexError, snd (find d y s)) /\
   is_connected d y x s = (Raise IndexError, snd (find d y s))).
Proof.
  intros Hwf Hd Hx.
  assert (~ valid (length (parent s)) x) as Hnv by (unfold valid; lia).
  assert (find d x s = (Raise IndexError, s)) as F.
  { destruct d as [|d]; [lia|]. now apply find_invalid. }
  split; [exact F|]. split; [now apply union_raise_x|].
  split; [unfold is_connected, bind; now rewrite F|].
  intros Hy. destruct (find_returns _ _ _ Hwf Hy Hd) as (ry & s1 & F1).
  destruct (find_sound _ _ _ _ _ Hwf F1) as (Hwf1 & Hsp & _).
  pose proof Hsp as (L & _).
  assert (find d x s1 = (Raise IndexError, s1)) as F2.
  { destruct d as [|d]; [lia|]. apply find_invalid. now rewrite L. }
  rewrite F1. simpl. split; [exact Hsp|].
  split; [eapply union_raise_y; eauto|].
  unfold is_connected, bind. now rewrite F1, F2.
Qed.

Lemma index_error_witness :
  let s := init ByRank 3 in
  find 4 3 s = (Raise IndexError, s) /\
  union ByRank 4 3 0 s = (Raise IndexError, s) /\
  is_connected 4 3 0 s = (Raise IndexError, s) /\
  (valid (length (parent s)) 0 ->
   same_partition s (snd (find 4 0 s)) /\
   union ByRank 4 0 3 s = (Raise IndexError, snd (find 4 0 s)) /\
   is_connected 4 0 3 s = (Raise IndexError, snd (find 4 0 s))).
Proof.
  intros s. apply (index_error ByRank s 4 3 0); [reflexivity | simpl; lia | simpl; lia].
Defined.

(** C4.  Union by size, on elements whose roots [rx] and [ry] differ:
    when size[rx] < size[ry], [rx] is put under [ry]; otherwise (a tie
    included) [ry] is put under [rx].  The root that stays gets the sum of
    the two sizes and no other entry of [size] changes. *)
Theorem union_by_size_policy s x y d rx ry :
  wf s = true ->
  0 <= x < Z.of_nat (length (parent s)) ->
  0 <= y < Z.of_nat (length (parent s)) ->
  (length (parent s) < d)%nat ->
  rep s x = Some rx -> rep s y = Some ry -> rx <> ry ->
  exists s',
    union BySize d x y s = (Ok true, s') /\
    (weight_at s rx < weight_at s ry ->
     entry (parent s') rx = Some ry /\ entry (parent s') ry = Some ry /\
     entry (weight s') ry = Some (weight_at s rx + weight_at s ry) /\
     forall u, u <> ry -> entry (weight s') u = entry (weight s) u) /\
    (weight_at s ry <= weight_at s rx ->
     entry (parent s') ry = Some rx /\ entry (parent s') rx = Some rx /\
     entry (weight s') rx = Some (weight_at s rx + weight_at s ry) /\
     forall u, u <> rx -> entry (weight s') u = entry (weight s) u).
Proof.
  intros Hwf Hx Hy Hd Hrx Hry Hne.
  destruct (union_distinct_roots BySize _ _ _ _ _ _ Hwf Hx Hy Hd Hrx Hry Hne)
    as (s2 & Hwf2 & (L & W & _) & Rx & Ry & E).
  exists (merge BySize s2 rx ry). split; [exact E|].
  apply is_root_entry in Rx as [Ex Hrgx], Ry as [Ey Hrgy].
  apply wf_iff in Hwf2 as [Hlen _].
  assert (weight_at s2 rx = weight_at s rx) as Wx by (unfold weight_at; now rewrite W).
  assert (weight_at s2 ry = weight_at s ry) as Wy by (unfold weight_at; now rewrite W).
  unfold merge. rewrite Wx, Wy, W. rewrite W in Hlen.
  destruct (Z.ltb_spec (weight_at s rx) (weight_at s ry)); split;
    try (intros; lia); intros _; simpl.
  - rewrite entry_upd_eq, entry_upd_ne, entry_upd_eq by lia.
    repeat split; auto; [f_equal; lia|]. intros u Hu. apply entry_upd_ne; lia.
  - rewrite entry_upd_eq, entry_upd_ne, entry_upd_eq by lia.
    repeat split; auto. intros u Hu. apply entry_upd_ne; lia.
Qed.

Lemma union_by_size_policy_witness :
  let s := run BySize 10 [Union 0 1] (init BySize 3) in
  exists s',
    union BySize 4 2 1 s = (Ok true, s') /\
    (weight_at s 2 < weight_at s 0 ->
     entry (parent s') 2 = Some 0 /\ entry (parent s') 0 = Some 0 /\
     entry (weight s') 0 = Some (weight_at s 2 + weight_at s 0) /\
     forall u, u <> 0 -> entry (weight s') u = entry (weight s) u) /\
    (weight_at s 0 <= weight_at s 2 ->
     entry (parent s') 0 = Some 2 /\ entry (parent s') 2 = Some 2 /\
     entry (weight s') 2 = Some (weight_at s 2 + weight_at s 0) /\
     forall u, u <> 2 -> entry (weight s') u = entry (weight s) u).
Proof.
  intros s.
  apply (union_by_size_policy s 2 1 4 2 0);
    [reflexivity | simpl; lia | simpl; lia | simpl; lia | reflexivity | reflexivity | lia].
Defined.

(** C5.  Union by rank, on elements whose roots [rx] and [ry] differ: the
    root of lower rank is put under the root of higher rank and [rank] is
    left as it was; on a tie [ry] is put under [rx] and rank[rx] grows by
    exactly 1, no other rank changing. *)
Theorem union_by_rank_policy s x y d rx ry :
  wf s = true ->
  0 <= x < Z.of_nat (length (parent s)) ->
  0 <= y < Z.of_nat (length (parent s)) ->
  (length (parent s) < d)%nat ->
  rep s x = Some rx -> rep s y = Some ry -> rx <> ry ->
  exists s',
    union ByRank d x y s = (Ok true, s') /\
    (weight_at s rx < weight_at s ry ->
     entry (parent s') rx = Some ry /\ entry (parent s') ry = Some ry /\
     weight s' = weight s) /\
    (weight_at s ry < weight_at s rx ->
     entry (parent s') ry = Some rx /\ entry (parent s') rx = Some rx /\
     weight s' = weight s) /\
    (weight_at s rx = weight_at s ry ->
     entry (parent s') ry = Some rx /\ entry (parent s') rx = Some rx /\
     entry (weight s') rx = Some (weight_at s rx + 1) /\
     forall u, u <> rx -> entry (weight s') u = entry (weight s) u).
Proof.
  intros Hwf Hx Hy Hd Hrx Hry Hne.
  destruct (union_distinct_roots ByRank _ _ _ _ _ _ Hwf Hx Hy Hd Hrx Hry Hne)
    as (s2 & Hwf2 & (L & W & _) & Rx & Ry & E).
  exists (merge ByRank s2 rx ry). split; [exact E|].
  apply is_root_entry in Rx as [Ex Hrgx], Ry as [Ey Hrgy].
  apply wf_iff in Hwf2 as [Hlen _].
  assert (weight_at s2 rx = weight_at s rx) as Wx by (unfold weight_at; now rewrite W).
  assert (weight_at s2 ry = weight_at s ry) as Wy by (unfold weight_at; now rewrite W).
  unfold merge. rewrite Wx, Wy, W. rewrite W in Hlen.
  destruct (Z.ltb_spec (weight_at s rx) (weight_at s ry));
    [|destruct (Z.ltb_spec (weight_at s ry) (weight_at s rx))];
    (split; [|split]); try (intros; lia); intros _; simpl.
  - rewrite entry_upd_eq, entry_upd_ne by lia. auto.
  - rewrite entry_upd_eq, entry_upd_ne by lia. auto.
  - rewrite entry_upd_eq, entry_upd_ne, entry_upd_eq by lia.
    repeat split; auto. intros u Hu. apply entry_upd_ne; lia.
Qed.

Lemma union_by_rank_policy_witness :
  let s := run ByRank 10 [Union 0 1] (init ByRank 4) in
  exists s',
    union ByRank 5 2 3 s = (Ok true, s') /\
    (weight_at s 2 < weight_at s 3 ->
     entry (parent s') 2 = Some 3 /\ entry (parent s') 3 = Some 3 /\
     weight s' = weight s) /\
    (weight_at s 3 < weight_at s 2 ->
     entry (parent s') 3 = Some 2 /\ entry (parent s') 2 = Some 2 /\
     weight s' = weight s) /\
    (weight_at s 2 = weight_at s 3 ->
     entry (parent s') 3 = Some 2 /\ entry (parent s') 2 = Some 2 /\
     entry (weight s') 2 = Some (weight_at s 2 + 1) /\
     forall u, u <> 2 -> entry (weight s') u = entry (weight s) u).
Proof.
  intros s.
  apply (union_by_rank_policy s 2 3 5 2 3);
    [reflexivity | simpl; lia | simpl; lia | simpl; lia | reflexivity | reflexivity | lia].
Defined.

(** C6.  On the object reached from [__init__] by any sequence of calls,
    and for valid x, y, z: is_connected(x, x) returns true; is_connected(x, y)
    and is_connected(y, x) return the same answer, asked one after the other
    or in the same state; and when is_connected(x, y) and then
    is_connected(y, z) return true, is_connected(x, z) returns true. *)
Theorem is_connected_equivalence v size d0 cs d x y z :
  0 <= x < size -> 0 <= y < size -> 0 <= z < size ->
  (Z.to_nat size < d)%nat ->
  let s := run v d0 cs (init v size) in
  fst (is_connected d x x s) = Ok true /\
  (exists b s1, is_connected d x y s = (Ok b, s1) /\
                fst (is_connected d y x s1) = Ok b /\
                fst (is_connected d y x s) = Ok b) /\
  (forall s1 s2, is_connected d x y s = (Ok true, s1) ->
                 is_connected d y z s1 = (Ok true, s2) ->
                 fst (is_connected d x z s2) = Ok true).
Proof.
  intros Hx Hy Hz Hd s.
  pose proof (wf_run v d0 cs size) as Hwf. fold s in Hwf.
  pose proof (length_run v d0 cs size) as L. fold s in L.
  assert (forall a, 0 <= a < size -> valid (length (parent s)) a) as Hv
    by (unfold valid; intros; lia).
  assert (forall a b, 0 <= a < size -> 0 <= b < size ->
            exists s1, is_connected d a b s = (Ok (same_set s a b), s1) /\
                       wf s1 = true /\ same_partition s s1) as Hans.
  { intros a b Ha Hb.
    destruct (is_connected_returns s a b d Hwf (Hv _ Ha) (Hv _ Hb)) as (s1 & E & H);
      [lia|]. rewrite !norm_nonneg in E by lia. eauto. }
  split; [|split].
  - destruct (Hans x x Hx Hx) as (s1 & -> & _). simpl.
    rewrite same_set_refl; auto. lia.
  - destruct (Hans x y Hx Hy) as (s1 & E & Hwf1 & Hsp).
    destruct (Hans y x Hy Hx) as (s1' & E' & _).
    exists (same_set s x y), s1. split; [exact E|].
    rewrite (is_connected_same_partition s s1) by (auto; lia).
    rewrite E'. simpl. now rewrite same_set_sym.
  - intros s1 s2 E1 E2.
    destruct (Hans x y Hx Hy) as (s1' & E1' & _). rewrite E1 in E1'.
    injection E1' as Hxy _.
    destruct (is_connected_sound _ _ _ _ _ _ Hwf E1) as (Hwf1 & Hsp1 & _).
    destruct (is_connected_sound _ _ _ _ _ _ Hwf1 E2) as (Hwf2 & Hsp2 & _).
    pose proof Hsp1 as (L1 & _).
    rewrite (is_connected_same_partition s1 s2) by (auto; lia).
    rewrite (is_connected_same_partition s s1) by (auto; lia).
    assert (fst (is_connected d y z s1) = Ok true) as E2' by now rewrite E2.
    rewrite (is_connected_same_partition s s1) in E2' by (auto; lia).
    destruct (Hans y z Hy Hz) as (s3 & E3 & _). rewrite E3 in E2'.
    injection E2' as Hyz.
    destruct (Hans x z Hx Hz) as (s4 & -> & _). simpl. f_equal.
    eapply same_set_trans; eauto.
Qed.

Lemma is_connected_equivalence_witness :
  let s := run BySize 10 [Union 0 1; Find 1; Union 1 2] (init BySize 4) in
  fst (is_connected 5 0 0 s) = Ok true /\
  (exists b s1, is_connected 5 0 1 s = (Ok b, s1) /\
                fst (is_connected 5 1 0 s1) = Ok b /\
                fst (is_connected 5 1 0 s) = Ok b) /\
  (forall s1 s2, is_connected 5 0 1 s = (Ok true, s1) ->
                 is_connected 5 1 2 s1 = (Ok true, s2) ->
                 fst (is_connected 5 0 2 s2) = Ok true).
Proof.
  apply (is_connected_equivalence BySize 4 10 [Union 0 1; Find 1; Union 1 2] 5 0 1 2);
    lia.
Defined.

(** C7.  Once is_connected(x, y) has returned true (or union(x, y) has
    returned), is_connected(x, y) returns true after any further sequence of
    calls, whatever their arguments and whether they return or raise. *)
Theorem connected_forever v s x y d s1 d0 cs :
  wf s = true ->
  0 <= x < Z.of_nat (length (parent s)) ->
  0 <= y < Z.of_nat (length (parent s)) ->
  (length (parent s) < d)%nat ->
  is_connected d x y s = (Ok true, s1) \/ (exists b, union v d x y s = (Ok b, s1)) ->
  fst (is_connected d x y (run v d0 cs s1)) = Ok true.
Proof.
  intros Hwf Hx Hy Hd H.
  assert (wf s1 = true /\ coarser s s1 /\ same_set s1 x y = true) as (Hwf1 & Hco & Hss).
  { destruct H as [E | [b E]].
    - destruct (is_connected_sound _ _ _ _ _ _ Hwf E) as (Hwf1 & Hsp & _).
      split; [exact Hwf1|]. split; [now apply same_partition_coarser|].
      destruct (is_connected_returns s x y d Hwf) as (s1' & E' & _);
        try (unfold valid; lia).
      rewrite !norm_nonneg in E' by lia. rewrite E in E'. injection E' as E' _.
      now rewrite (same_partition_same_set _ _ _ _ Hsp).
    - destruct (union_connects _ _ _ _ _ _ _ Hwf E) as (Hwf1 & Hco & Hss).
      rewrite !norm_nonneg in Hss by lia. auto. }
  destruct (run_sound v d0 cs s1 Hwf1) as [Hwf2 Hco2].
  pose proof Hco as [L1 _]. pose proof Hco2 as [L2 _].
  rewrite is_connected_answer by (auto; lia).
  rewrite !bool_decide_eq_true_2 by (unfold valid; lia). simpl.
  rewrite !norm_nonneg by lia. f_equal. eapply coarser_same_set; eauto.
Qed.

Lemma connected_forever_witness :
  let s := run ByRank 10 [Union 0 1; Union 1 2] (init ByRank 5) in
  fst (is_connected 6 0 2
         (run ByRank 10 [Union 3 4; Find 2; Union 4 0; IsConnected 1 7]
              (snd (is_connected 6 0 2 s)))) = Ok true.
Proof.
  intros s.
  apply (connected_forever ByRank s 0 2 6 (snd (is_connected 6 0 2 s)) 10
           [Union 3 4; Find 2; Union 4 0; IsConnected 1 7]);
    [reflexivity | simpl; lia | simpl; lia | simpl; lia | left; reflexivity].
Defined.

(** C8.  [find x] on a valid index returns [r], the representative of
    [x]: the root its parent chain ends in, with parent[r] == r before and
    after the call.  Asked again, straight away or after any sequence of
    calls of [find] and [is_connected] (no [union]), it returns the same
    root [r], still a root and still the representative of [x]; and every
    call of [is_connected] answers, after the call of [find], what it
    answered before it. *)
Theorem find_stable v s x d :
  wf s = true ->
  0 <= x < Z.of_nat (length (parent s)) ->
  (length (parent s) < d)%nat ->
  exists r s1,
    find d x s = (Ok r, s1) /\
    (exists vs, chain (parent s) x vs r) /\
    rep s x = Some r /\ is_root (parent s) r = true /\
    rep s1 x = Some r /\ is_root (parent s1) r = true /\
    fst (find d x s1) = Ok r /\
    (forall d0 cs, no_union cs = true ->
       fst (find d x (run v d0 cs s1)) = Ok r /\
       rep (run v d0 cs s1) x = Some r /\
       is_root (parent (run v d0 cs s1)) r = true) /\
    (forall a b, fst (is_connected d a b s1) = fst (is_connected d a b s)).
Proof.
  intros Hwf Hx Hd.
  assert (valid (length (parent s)) x) as Hv by (unfold valid; lia).
  destruct (find_returns _ _ _ Hwf Hv Hd) as (r & s1 & F). exists r, s1.
  destruct (find_sound _ _ _ _ _ Hwf F) as (Hwf1 & Hsp & _ & Hr & vs & Hch & _).
  rewrite norm_nonneg in Hr, Hch by lia.
  destruct (rep_is_root _ _ _ Hr) as [Rr _].
  assert (forall s2, wf s2 = true -> same_partition s s2 ->
            fst (find d x s2) = Ok r /\ rep s2 x = Some r /\
            is_root (parent s2) r = true) as Hagain.
  { intros s2 Hwf2 Hsp2. pose proof Hsp2 as (L & _ & R & I).
    rewrite find_answer by (auto; unfold valid; lia).
    rewrite norm_nonneg by lia. now rewrite R, I, Hr. }
  destruct (Hagain s1 Hwf1 Hsp) as (F1 & Hr1 & Rr1).
  split; [exact F|]. split; [eauto|].
  split; [exact Hr|]. split; [exact Rr|].
  split; [exact Hr1|]. split; [exact Rr1|]. split; [exact F1|]. split.
  - intros d0 cs Hn. destruct (run_no_union v d0 cs s1 Hwf1 Hn) as [Hwf2 Hsp2].
    apply Hagain; eauto using same_partition_trans.
  - intros a b. now apply is_connected_same_partition.
Qed.

Lemma find_stable_witness :
  let s := run ByRank 10 [Union 0 1; Union 2 3; Union 0 2] (init ByRank 4) in
  exists r s1,
    find 5 3 s = (Ok r, s1) /\
    (exists vs, chain (parent s) 3 vs r) /\
    rep s 3 = Some r /\ is_root (parent s) r = true /\
    rep s1 3 = Some r /\ is_root (parent s1) r = true /\
    fst (find 5 3 s1) = Ok r /\
    (forall d0 cs, no_union cs = true ->
       fst (find 5 3 (run ByRank d0 cs s1)) = Ok r /\
       rep (run ByRank d0 cs s1) 3 = Some r /\
       is_root (parent (run ByRank d0 cs s1)) r = true) /\
    (forall a b, fst (is_connected 5 a b s1) = fst (is_connected 5 a b s)).
Proof.
  intros s. apply (find_stable ByRank s 3 5); [reflexivity | simpl; lia | simpl; lia].
Defined.

(** C9.  In the size variant, on the object reached from [__init__] by any
    sequence of calls: size[r] of every current root [r] is the number of
    elements whose set has root [r], and the sizes of the current roots add
    up to N, the number of elements. *)
Theorem size_conservation size d cs :
  let s := run BySize d cs (init BySize size) in
  (forall r, is_root (parent s) r = true -> entry (weight s) r = Some (members s r)) /\
  root_weights s = Z.of_nat (length (parent s)) /\
  Z.of_nat (length (parent s)) = Z.max 0 size.
Proof.
  intros s.
  assert (wf s = true) as Hwf by apply wf_run.
  assert (size_ok s) as H by (apply run_size_ok; [apply wf_init | apply size_ok_init]).
  split; [exact H|]. split; [now apply root_weights_total|].
  unfold s. rewrite length_run. lia.
Qed.

(** C10.  On a well-formed object of size N, a negative index x with
    -N <= x < 0 is accepted: [find x] does what [find (N + x)] does, it
    follows the chain from element N + x, compresses it and returns its root;
    [union x y] does what [union (N + x) y] does, so for a valid y it
    returns, and elements N + x and y are in one set afterwards.  With
    x = -1 and y = 0: union(-1, 0) merges the set of element N - 1 with the
    set of element 0. *)
Theorem negative_index_accepted v s x y d :
  wf s = true ->
  - Z.of_nat (length (parent s)) <= x < 0 ->
  0 <= y < Z.of_nat (length (parent s)) ->
  (length (parent s) < d)%nat ->
  let x' := Z.of_nat (length (parent s)) + x in
  (exists vs r,
     chain (parent s) x' vs r /\
     find d x s = (Ok r, mkDS (compress (parent s) vs r) (weight s))) /\
  find d x s = find d x' s /\
  union v d x y s = union v d x' y s /\
  exists b s', union v d x y s = (Ok b, s') /\ same_set s' x' y = true.
Proof.
  intros Hwf Hx Hy Hd x'.
  assert (valid (length (parent s)) x) as Hv by (unfold valid; lia).
  assert (norm (length (parent s)) x = x') as Hn.
  { unfold norm. destruct (Z.ltb_spec x 0); [reflexivity | lia]. }
  pose proof Hwf as Hwf'. apply wf_iff in Hwf' as [_ HF].
  destruct (HF x') as (vs & r & Hc); [unfold x'; lia|].
  pose proof (chain_length _ _ _ _ Hc) as Hl.
  destruct s as [p w]. simpl parent in *. simpl weight in *.
  assert (find d x (mkDS p w) = (Ok r, mkDS (compress p vs r) w)) as F.
  { apply (find_valid p x vs r Hv); [now rewrite Hn | lia]. }
  assert (find d x' (mkDS p w) = (Ok r, mkDS (compress p vs r) w)) as F'.
  { apply (find_chain p x' vs r Hc). lia. }
  split; [eauto|]. split; [congruence|].
  split; [apply union_first_find; congruence|].
  destruct (union_returns v (mkDS p w) x y d Hwf Hv) as (b & s' & E);
    [unfold valid; simpl; lia | simpl; lia |].
  exists b, s'. split; [exact E|].
  destruct (union_connects _ _ _ _ _ _ _ Hwf E) as (_ & _ & Hss).
  simpl parent in Hss. now rewrite Hn, norm_nonneg in Hss by lia.
Qed.

Lemma negative_index_accepted_witness :
  let s := init BySize 3 in
  (exists vs r,
     chain (parent s) (3 + -1) vs r /\
     find 4 (-1) s = (Ok r, mkDS (compress (parent s) vs r) (weight s))) /\
  find 4 (-1) s = find 4 (3 + -1) s /\
  union BySize 4 (-1) 0 s = union BySize 4 (3 + -1) 0 s /\
  exists b s', union BySize 4 (-1) 0 s = (Ok b, s') /\ same_set s' (3 + -1) 0 = true.
Proof.
  intros s.
  apply (negative_index_accepted BySize s (-1) 0 4);
    [reflexivity | simpl; lia | simpl; lia | simpl; lia].
Defined.

(** * Further properties of the code *)

(** ** Fresh and empty objects *)

Lemma find_init v size d x :
  0 <= x < size -> find (S d) x (init v size) = (Ok x, init v size).
Proof.
  intros Hx. rewrite find_S.
  rewrite getitem_entry by (rewrite length_init; lia).
  rewrite entry_init by lia. now rewrite Z.eqb_refl.
Qed.

Lemma roots_init v size : roots (init v size) = indices (Z.to_nat size).
Proof.
  unfold roots. rewrite length_init.
  assert (forall l : list Z, (forall x, x ∈ l -> 0 <= x < Z.of_nat (Z.to_nat size)) ->
            filter (fun x => is_root (parent (init v size)) x = true) l = l) as H.
  { induction l as [|a l IH]; intros Hl; [reflexivity|].
    rewrite filter_cons_True.
    - f_equal. apply IH. intros x Hx. apply Hl. now right.
    - unfold is_root. rewrite entry_init by (apply Hl; now left). apply Z.eqb_refl. }
  apply H. intros x Hx. now apply elem_of_indices.
Qed.

(** [__init__] makes N singleton sets: every element is a root and its own
    representative, [find x] returns [x], [is_connected x y] answers
    [x == y] and [union x x] returns false, all three without touching the
    object. *)
Theorem fresh_singletons v size d x y :
  0 <= x < size -> 0 <= y < size -> (0 < d)%nat ->
  roots (init v size) = indices (Z.to_nat size) /\
  find d x (init v size) = (Ok x, init v size) /\
  is_connected d x y (init v size) = (Ok (x =? y), init v size) /\
  union v d x x (init v size) = (Ok false, init v size).
Proof.
  intros Hx Hy Hd. destruct d as [|d]; [lia|].
  split; [apply roots_init|]. split; [now apply find_init|]. split.
  - unfold is_connected, bind, ret. now rewrite !find_init.
  - destruct v; unfold union, union_by_rank, union_by_size, bind, ret;
      rewrite !find_init by lia; now rewrite Z.eqb_refl.
Qed.

Lemma fresh_singletons_witness :
  roots (init BySize 3) = indices (Z.to_nat 3) /\
  find 1 2 (init BySize 3) = (Ok 2, init BySize 3) /\
  is_connected 1 2 0 (init BySize 3) = (Ok (2 =? 0), init BySize 3) /\
  union BySize 1 2 2 (init BySize 3) = (Ok false, init BySize 3).
Proof. apply (fresh_singletons BySize 3 1 2 0); lia. Defined.

(** An object built with [size <= 0] has no element: every method raises
    [IndexError] on every index, and the object stays empty. *)
Theorem empty_object v size d x y :
  size <= 0 -> (0 < d)%nat ->
  init v size = mkDS [] [] /\
  find d x (init v size) = (Raise IndexError, init v size) /\
  union v d x y (init v size) = (Raise IndexError, init v size) /\
  is_connected d x y (init v size) = (Raise IndexError, init v size).
Proof.
  intros Hs Hd. destruct d as [|d]; [lia|].
  assert (find (S d) x (init v size) = (Raise IndexError, init v size)) as F.
  { apply find_invalid. rewrite length_init. unfold valid. lia. }
  split; [unfold init; now replace (Z.to_nat size) with 0%nat by lia|].
  split; [exact F|]. split; [now apply union_raise_x|].
  unfold is_connected, bind. now rewrite F.
Qed.

Lemma empty_object_witness :
  init ByRank (-2) = mkDS [] [] /\
  find 3 0 (init ByRank (-2)) = (Raise IndexError, init ByRank (-2)) /\
  union ByRank 3 0 (-1) (init ByRank (-2)) = (Raise IndexError, init ByRank (-2)) /\
  is_connected 3 0 (-1) (init ByRank (-2)) = (Raise IndexError, init ByRank (-2)).
Proof. apply (empty_object ByRank (-2) 3 0 (-1)); lia. Defined.

(** ** The shape of the object *)

(** Whatever is called on it, with whatever arguments and whether the calls
    return or raise, the object keeps its N entries in both lists, every
    entry of [parent] is an element, and following [parent] from any element
    reaches a root without visiting a node twice. *)
Theorem forest_invariant v size d cs :
  let s := run v d cs (init v size) in
  length (parent s) = Z.to_nat size /\
  length (weight s) = Z.to_nat size /\
  (forall x y, entry (parent s) x = Some y -> 0 <= y < Z.of_nat (length (parent s))) /\
  (forall x, 0 <= x < Z.of_nat (length (parent s)) ->
             exists vs r, chain (parent s) x vs r /\ NoDup (vs ++ [r])).
Proof.
  intros s. pose proof (wf_run v d cs size) as Hwf. fold s in Hwf.
  pose proof (length_run v d cs size) as L. fold s in L.
  apply wf_iff in Hwf as [Hlen HF].
  split; [exact L|]. split; [congruence|]. split.
  - intros x y Hxy. destruct (HF x (entry_Some _ _ _ Hxy)) as (vs & r & Hc).
    inversion Hc as [? Hr | ? y' ? ? Hx' Hne' Hc']; subst.
    + rewrite Hr in Hxy. injection Hxy as <-. eauto using entry_Some.
    + rewrite Hx' in Hxy. injection Hxy as <-. eauto using chain_start.
  - intros x Hx. destruct (HF x Hx) as (vs & r & Hc). eauto using chain_NoDup.
Qed.

(** ** Looking up twice *)

Lemma compress_points_to_root p x vs r :
  chain p x vs r -> forall v, v ∈ vs ++ [r] -> entry (compress p vs r) v = Some r.
Proof.
  intros Hc v Hv.
  assert (forall u, u ∈ vs -> 0 <= u < Z.of_nat (length p)) as Hvs.
  { intros u Hu. eapply chain_in_range; [exact Hc|]. apply elem_of_app. now left. }
  apply elem_of_app in Hv as [Hv | Hv].
  - now apply entry_compress_in.
  - apply list_elem_of_singleton in Hv. subst v.
    pose proof (chain_NoDup _ _ _ _ Hc) as Hnd.
    rewrite entry_compress_notin; [eauto using chain_end | intros; now apply Hvs |].
    apply NoDup_app in Hnd as (_ & Hnd & _). intros Hin. apply (Hnd _ Hin). now left.
Qed.

(** On a node that points at a root, [find] changes nothing. *)
Lemma find_direct p w v r d :
  entry p v = Some r -> entry p r = Some r -> (1 < d)%nat ->
  find d v (mkDS p w) = (Ok r, mkDS p w).
Proof.
  intros Hv Hr Hd. destruct (decide (v = r)) as [-> | Hne].
  - apply (find_chain p r [] r (chain_root p r Hr)). simpl. lia.
  - assert (chain p v [v] r) as Hc by (econstructor; [exact Hv | auto | now constructor]).
    destruct (find_chain p v [v] r Hc d w) as [H _]. rewrite H by (simpl; lia).
    simpl. now rewrite (upd_same _ _ _ Hv).
Qed.

(** After [find x] every node of the chain it walked points straight at the
    root, and a second [find] on any of them (on [x] itself, too) returns the
    same root and leaves the object exactly as the first call left it. *)
Theorem find_twice s x d :
  wf s = true ->
  0 <= x < Z.of_nat (length (parent s)) ->
  (length (parent s) < d)%nat ->
  exists vs r s1,
    chain (parent s) x vs r /\
    find d x s = (Ok r, s1) /\
    find d x s1 = (Ok r, s1) /\
    forall v, v ∈ vs ++ [r] ->
              entry (parent s1) v = Some r /\ find d v s1 = (Ok r, s1).
Proof.
  intros Hwf Hx Hd. pose proof Hwf as Hwf'. apply wf_iff in Hwf' as [_ HF].
  destruct (HF x Hx) as (vs & r & Hc).
  pose proof (chain_length _ _ _ _ Hc) as Hl.
  pose proof (compress_points_to_root _ _ _ _ Hc) as Hpt.
  destruct s as [p w]. simpl parent in *.
  exists vs, r, (mkDS (compress p vs r) w).
  assert (forall v, v ∈ vs ++ [r] ->
            find d v (mkDS (compress p vs r) w) = (Ok r, mkDS (compress p vs r) w)) as Hagain.
  { intros v Hv. apply find_direct; [now apply Hpt | | lia].
    apply Hpt, elem_of_app. right. now left. }
  split; [exact Hc|]. split; [apply (find_chain _ _ _ _ Hc); lia|]. split.
  - apply Hagain. inversion Hc; subst; simpl; now left.
  - intros v Hv. split; [now apply Hpt | now apply Hagain].
Qed.

Lemma find_twice_witness :
  let s := run ByRank 10 [Union 0 1; Union 2 3; Union 0 2] (init ByRank 4) in
  exists vs r s1,
    chain (parent s) 3 vs r /\
    find 5 3 s = (Ok r, s1) /\
    find 5 3 s1 = (Ok r, s1) /\
    forall v, v ∈ vs ++ [r] ->
              entry (parent s1) v = Some r /\ find 5 v s1 = (Ok r, s1).
Proof.
  intros s. apply (find_twice s 3 5); [reflexivity | simpl; lia | simpl; lia].
Defined.

(** ** A call of [find] that raises *)

Lemma index_lt n x k : index n x = Some k -> (k < n)%nat.
Proof.
  unfold index.
  destruct (Z.leb_spec 0 x), (Z.ltb_spec x (Z.of_nat n)), (Z.ltb_spec x 0),
    (Z.leb_spec (- Z.of_nat n) x); simpl; intros E; try discriminate;
    injection E as <-; lia.
Qed.

Lemma find_lengths d :
  forall x s res s', find d x s = (res, s') ->
    length (parent s') = length (parent s) /\ weight s' = weight s.
Proof.
  induction d as [|d IH]; intros x s res s' F.
  - simpl in F. injection F as <- <-. auto.
  - rewrite find_S in F. destruct (getitem (parent s) x) as [px|]; [|injection F as <- <-; auto].
    destruct (x =? px); [injection F as <- <-; auto|].
    destruct (find d px s) as [[r | e] s1] eqn:F1; destruct (IH _ _ _ _ F1) as [L W];
      [|injection F as <- <-; auto].
    unfold setitem in F. destruct (index (length (parent s1)) x) as [k|];
      [|injection F as <- <-; auto].
    destruct (getitem (<[k:=r]> (parent s1)) x); injection F as <- <-; simpl;
      rewrite length_insert; auto.
Qed.

(** [find] is all or nothing, on any object (a well-formed one or not), any
    index and any recursion limit: when it raises, [IndexError] or
    [RecursionError], nothing has been written. *)
Theorem find_raise_unchanged d x s e s' :
  find d x s = (Raise e, s') -> s' = s.
Proof.
  revert x s e s'. induction d as [|d IH]; intros x s e s' F.
  - simpl in F. now injection F as _ <-.
  - rewrite find_S in F. unfold getitem at 1 in F.
    destruct (index (length (parent s)) x) as [k|] eqn:Ek; [|now injection F as _ <-].
    destruct (parent s !! k) as [px|]; [|now injection F as _ <-].
    destruct (x =? px); [discriminate|].
    destruct (find d px s) as [[r | e1] s1] eqn:F1.
    + destruct (find_lengths _ _ _ _ _ F1) as [L _].
      unfold setitem in F. rewrite L, Ek in F.
      unfold getitem in F. rewrite length_insert, L, Ek in F.
      pose proof (index_lt _ _ _ Ek) as Hk.
      rewrite list_lookup_insert_eq in F by lia. discriminate.
    + injection F as _ <-. eauto.
Qed.

Lemma find_raise_unchanged_witness :
  let s := mkDS [0; 0; 0; 2] [2; 0; 1; 0] in
  snd (find 2 3 s) = s.
Proof.
  intros s. apply (find_raise_unchanged 2 3 s RecursionError (snd (find 2 3 s))).
  reflexivity.
Defined.

(** ** What changes the partition, and how *)

Lemma roots_same_partition s s' : same_partition s s' -> roots s' = roots s.
Proof.
  intros (L & _ & _ & I). unfold roots. rewrite L.
  apply list_filter_iff. intros x. now rewrite I.
Qed.

(** Only a call of [union] that returns true changes anything a caller can
    observe: every other call (any [find], any [is_connected], a [union]
    that returns false, any call that raises) leaves the weights, the roots
    and the representative of every element as they were. *)
Theorem only_a_merge_changes_the_partition v d c s :
  wf s = true ->
  (forall x y, c = Union x y -> fst (union v d x y s) <> Ok true) ->
  same_partition s (exec v d c s) /\ roots (exec v d c s) = roots s.
Proof.
  intros Hwf Hc.
  assert (same_partition s (exec v d c s)) as Hsp; [|auto using roots_same_partition].
  destruct c as [x | x y | x y]; cbn [exec].
  - destruct (find d x s) as [res s'] eqn:F.
    now destruct (find_sound _ _ _ _ _ Hwf F) as (_ & Hsp & _).
  - specialize (Hc x y eq_refl). destruct (union v d x y s) as [res s'] eqn:U.
    destruct (union_sound _ _ _ _ _ _ _ Hwf U) as (s2 & _ & Hsp & H).
    destruct res as [b | e]; simpl in *.
    + destruct H as (_ & _ & rx & ry & _ & _ & -> & -> & _).
      destruct (rx =? ry); [exact Hsp | now destruct Hc].
    + now destruct H as (-> & _).
  - destruct (is_connected d x y s) as [res s'] eqn:F.
    now destruct (is_connected_sound _ _ _ _ _ _ Hwf F) as (_ & Hsp & _).
Qed.

Lemma only_a_merge_changes_the_partition_witness :
  let s := run BySize 10 [Union 0 1; Union 1 2] (init BySize 4) in
  same_partition s (exec BySize 5 (Union 2 0) s) /\
  roots (exec BySize 5 (Union 2 0) s) = roots s.
Proof.
  intros s. apply (only_a_merge_changes_the_partition BySize 5 (Union 2 0) s);
    [reflexivity|].
  intros x y E. injection E as <- <-. discriminate.
Defined.

(** A call of [union] that returns true leaves exactly one root fewer: the
    number of sets goes down by one. *)
Theorem union_true_one_set_less v d x y s s' :
  wf s = true -> union v d x y s = (Ok true, s') ->
  S (length (roots s')) = length (roots s).
Proof.
  intros Hwf U.
  destruct (union_sound _ _ _ _ _ _ _ Hwf U)
    as (s2 & Hwf2 & Hsp & _ & _ & rx & ry & Hrx & Hry & Hb & -> & _).
  destruct (Z.eqb_spec rx ry) as [? | Hne]; [discriminate|].
  rewrite <- (roots_same_partition _ _ Hsp).
  pose proof Hsp as (_ & _ & R & _). rewrite <- R in Hrx, Hry.
  destruct (rep_is_root _ _ _ Hrx) as [Rx _], (rep_is_root _ _ _ Hry) as [Ry _].
  destruct (merge_sound v _ _ _ Hwf2 Rx Ry Hne) as (_ & L & _ & I).
  assert (is_root (parent s2) (loser s2 rx ry) = true) as Rl
    by (unfold loser; now destruct (_ <? _)).
  unfold roots. rewrite L.
  rewrite (length_filter_split (fun u => is_root (parent s2) u = true)
             (fun u => is_root (parent (merge v s2 rx ry)) u = true)
             (fun u => u = loser s2 rx ry)).
  - rewrite length_filter_eq_one; [lia | apply NoDup_indices |].
    apply elem_of_indices. now apply is_root_entry in Rl as [_ ?].
  - intros u. rewrite I, andb_true_iff, negb_true_iff, Z.eqb_neq.
    destruct (decide (u = loser s2 rx ry)) as [-> | ?]; tauto.
  - intros u Hu ->. rewrite I, Z.eqb_refl, andb_false_r in Hu. discriminate.
Qed.

Lemma union_true_one_set_less_witness :
  let s := run ByRank 10 [Union 0 1] (init ByRank 4) in
  S (length (roots (snd (union ByRank 5 1 3 s)))) = length (roots s).
Proof.
  intros s.
  apply (union_true_one_set_less ByRank 5 1 3 s (snd (union ByRank 5 1 3 s)));
    reflexivity.
Defined.

Lemma union_answer v s x y d :
  wf s = true ->
  0 <= x < Z.of_nat (length (parent s)) ->
  0 <= y < Z.of_nat (length (parent s)) ->
  (length (parent s) < d)%nat ->
  fst (union v d x y s) = Ok (negb (same_set s x y)).
Proof.
  intros Hwf Hx Hy Hd.
  destruct (union_returns v s x y d Hwf) as (b & s' & U); try (unfold valid; lia).
  destruct (union_sound _ _ _ _ _ _ _ Hwf U)
    as (s2 & _ & _ & _ & _ & rx & ry & Hrx & Hry & -> & _).
  rewrite norm_nonneg in Hrx, Hry by lia.
  rewrite U. unfold same_set. now rewrite Hrx, Hry.
Qed.

(** The partition after [union x y]: two elements are in one set when they
    were before, or when one was with [x] and the other with [y]. *)
Lemma union_same_set v s x y d b s' a c :
  wf s = true ->
  0 <= x < Z.of_nat (length (parent s)) ->
  0 <= y < Z.of_nat (length (parent s)) ->
  union v d x y s = (Ok b, s') ->
  same_set s' a c =
  same_set s a c || (same_set s a x && same_set s c y) || (same_set s a y && same_set s c x).
Proof.
  intros Hwf Hx Hy U.
  destruct (union_sound _ _ _ _ _ _ _ Hwf U)
    as (s2 & Hwf2 & Hsp & _ & _ & rx & ry & Hrx & Hry & _ & -> & _).
  rewrite norm_nonneg in Hrx, Hry by lia.
  pose proof Hsp as (_ & _ & R & _).
  destruct (Z.eqb_spec rx ry) as [-> | Hne].
  - rewrite (same_partition_same_set _ _ _ _ Hsp). unfold same_set.
    rewrite Hrx, Hry. destruct (rep s a) as [qa|], (rep s c) as [qc|]; simpl;
      repeat match goal with
             | |- context [?u =? ?w] => destruct (Z.eqb_spec u w)
             end; simpl; congruence.
  - pose proof Hrx as Hrx'. pose proof Hry as Hry'. rewrite <- R in Hrx', Hry'.
    destruct (rep_is_root _ _ _ Hrx') as [Rx _], (rep_is_root _ _ _ Hry') as [Ry _].
    destruct (merge_sound v _ _ _ Hwf2 Rx Ry Hne) as (_ & _ & R' & _).
    unfold same_set. rewrite !R', !R, Hrx, Hry. unfold loser, survivor.
    destruct (_ <? _), (rep s a) as [qa|], (rep s c) as [qc|]; simpl;
      repeat match goal with
             | |- context [?u =? ?w] => destruct (Z.eqb_spec u w)
             end; simpl; congruence.
Qed.

(** The order of the two arguments of [union] does not matter to a caller:
    [union x y] and [union y x] return the same answer and leave the same
    partition (the root that represents the merged set may differ). *)
Theorem union_commutes v s x y d :
  wf s = true ->
  0 <= x < Z.of_nat (length (parent s)) ->
  0 <= y < Z.of_nat (length (parent s)) ->
  (length (parent s) < d)%nat ->
  fst (union v d x y s) = fst (union v d y x s) /\
  forall a c, same_set (snd (union v d x y s)) a c = same_set (snd (union v d y x s)) a c.
Proof.
  intros Hwf Hx Hy Hd. split.
  - rewrite !union_answer by assumption. now rewrite (same_set_sym s x y).
  - intros a c.
    destruct (union_returns v s x y d Hwf) as (b1 & s1 & U1); try (unfold valid; lia).
    destruct (union_returns v s y x d Hwf) as (b2 & s2 & U2); try (unfold valid; lia).
    rewrite U1, U2. simpl.
    rewrite (union_same_set _ _ _ _ _ _ _ a c Hwf Hx Hy U1).
    rewrite (union_same_set _ _ _ _ _ _ _ a c Hwf Hy Hx U2).
    rewrite <- !orb_assoc. f_equal. apply orb_comm.
Qed.

Lemma union_commutes_witness :
  let s := run ByRank 10 [Union 0 1; Union 2 3] (init ByRank 5) in
  fst (union ByRank 6 1 3 s) = fst (union ByRank 6 3 1 s) /\
  forall a c, same_set (snd (union ByRank 6 1 3 s)) a c =
              same_set (snd (union ByRank 6 3 1 s)) a c.
Proof.
  intros s. apply (union_commutes ByRank s 1 3 6);
    [reflexivity | simpl; lia | simpl; lia | simpl; lia].
Defined.

(** Once [union x y] has returned, asking again for the same merge, in
    either order, returns false. *)
Theorem union_again_false v s x y d b s1 :
  wf s = true ->
  0 <= x < Z.of_nat (length (parent s)) ->
  0 <= y < Z.of_nat (length (parent s)) ->
  (length (parent s) < d)%nat ->
  union v d x y s = (Ok b, s1) ->
  fst (union v d x y s1) = Ok false /\ fst (union v d y x s1) = Ok false.
Proof.
  intros Hwf Hx Hy Hd U.
  destruct (union_connects _ _ _ _ _ _ _ Hwf U) as (Hwf1 & [L _] & Hss).
  rewrite !norm_nonneg in Hss by lia.
  rewrite !union_answer by (auto; lia).
  now rewrite (same_set_sym s1 y x), Hss.
Qed.

Lemma union_again_false_witness :
  let s := init BySize 4 in
  fst (union BySize 5 0 3 (snd (union BySize 5 0 3 s))) = Ok false /\
  fst (union BySize 5 3 0 (snd (union BySize 5 0 3 s))) = Ok false.
Proof.
  intros s.
  apply (union_again_false BySize s 0 3 5 true (snd (union BySize 5 0 3 s)));
    [reflexivity | simpl; lia | simpl; lia | simpl; lia | reflexivity].
Defined.

(** ** Ranks and the height of the trees *)

Lemma ranked_ext s h h' : (forall x, h x = h' x) -> ranked s h -> ranked s h'.
Proof.
  intros E (Hc & Ha & Hb). repeat split.
  - intros x. rewrite <- E. apply Hc.
  - intros x y Hxy Hne. rewrite <- !E. now apply Ha.
  - intros r Hr. rewrite <- E. now apply Hb.
Qed.

(** Along a chain the rank grows by at least one per node. *)
Lemma ranked_chain p (h : Z -> Z) x vs r :
  (forall x y, entry p x = Some y -> y <> x -> h x < h y) ->
  chain p x vs r -> h x + Z.of_nat (length vs) <= h r.
Proof.
  intros Ha. induction 1 as [r Hr | x y vs r Hx Hne Hc IH]; simpl length; [lia|].
  specialize (Ha _ _ Hx Hne). lia.
Qed.

Lemma members_nonneg s r : 0 <= members s r.
Proof. unfold members. lia. Qed.

Lemma members_le s r : members s r <= Z.of_nat (length (parent s)).
Proof.
  unfold members. apply inj_le.
  etransitivity; [apply length_filter|]. now rewrite length_indices.
Qed.

Lemma ranked_find s h d x res s' :
  wf s = true -> ranked s h -> find d x s = (res, s') -> ranked s' h.
Proof.
  intros Hwf (Hc & Ha & Hb) F.
  destruct (find_sound _ _ _ _ _ Hwf F) as (_ & Hsp & H).
  assert (forall r, is_root (parent s') r = true -> 2 ^ h r <= members s' r) as Hb'.
  { intros r Hr. pose proof Hsp as (_ & _ & _ & I).
    rewrite (members_same_partition _ _ _ Hsp). apply Hb. now rewrite <- I. }
  split; [exact Hc|]. split; [|exact Hb'].
  destruct res as [r | []]; [|destruct H as [_ ->]; exact Ha ..].
  destruct H as (_ & _ & vs & Hch & ->). simpl parent. intros u y Hu Hne.
  assert (forall v, v ∈ vs -> 0 <= v < Z.of_nat (length (parent s))) as Hrange.
  { intros v Hv. eapply chain_in_range; [exact Hch|]. apply elem_of_app. now left. }
  destruct (decide (u ∈ vs)) as [Hin | Hnin].
  - rewrite entry_compress_in in Hu by auto. injection Hu as <-.
    destruct (chain_nodes _ _ _ _ Hch _ Hin) as (vs1 & vs2 & _ & Hc' & _).
    pose proof (ranked_chain _ h _ _ _ Ha Hc') as Hle.
    inversion Hc'; subst; [contradiction | simpl length in Hle; lia].
  - rewrite entry_compress_notin in Hu by (auto; intros v Hv; now apply Hrange).
    now apply Ha.
Qed.

Lemma loser_survivor s rx ry :
  is_root (parent s) rx = true -> is_root (parent s) ry = true -> rx <> ry ->
  is_root (parent s) (loser s rx ry) = true /\
  is_root (parent s) (survivor s rx ry) = true /\
  loser s rx ry <> survivor s rx ry /\
  weight_at s (loser s rx ry) <= weight_at s (survivor s rx ry) /\
  members s rx + members s ry =
  members s (loser s rx ry) + members s (survivor s rx ry).
Proof.
  intros Rx Ry Hne. unfold loser, survivor.
  destruct (Z.ltb_spec (weight_at s rx) (weight_at s ry)); repeat split; auto; lia.
Qed.

(** The merge keeps a ranking, the surviving root taking a rank above the
    one it had and above the rank of the root put under it, as long as the
    surviving set is at least as large as [2 ^ rank] of the other root. *)
Lemma ranked_merge v s rx ry h :
  wf s = true -> is_root (parent s) rx = true -> is_root (parent s) ry = true ->
  rx <> ry -> ranked s h ->
  2 ^ h (loser s rx ry) <= members s (survivor s rx ry) ->
  ranked (merge v s rx ry)
         (fun u => if u =? survivor s rx ry
                   then Z.max (h (survivor s rx ry)) (h (loser s rx ry) + 1)
                   else h u).
Proof.
  intros Hwf Rx Ry Hne (Hc & Ha & Hb) Hlw.
  destruct (loser_survivor s rx ry Rx Ry Hne) as (Rl & Rw & Hls & _ & Hm).
  destruct (merge_sound v _ _ _ Hwf Rx Ry Hne) as (_ & _ & _ & I).
  set (l := loser s rx ry) in *. set (w := survivor s rx ry) in *.
  pose proof (is_root_entry _ _ Rl) as [El Hrl].
  pose proof (is_root_entry _ _ Rw) as [Ew Hrw].
  split; [|split].
  - intros x. pose proof (Hc x). pose proof (Hc w). pose proof (Hc l).
    destruct (x =? w); lia.
  - rewrite parent_merge. fold l w. intros u y Hu Hy.
    destruct (decide (u = l)) as [-> | Hul].
    + rewrite entry_upd_eq in Hu by exact Hrl. injection Hu as <-.
      rewrite Z.eqb_refl. destruct (Z.eqb_spec l w); [contradiction | lia].
    + rewrite entry_upd_ne in Hu by (auto; lia).
      specialize (Ha _ _ Hu Hy).
      destruct (Z.eqb_spec u w) as [-> | _]; [congruence|].
      destruct (Z.eqb_spec y w); subst; lia.
  - intros r Hr. rewrite I in Hr. apply andb_true_iff in Hr as [Hr Hrl'].
    apply negb_true_iff, Z.eqb_neq in Hrl'. fold l in Hrl'.
    rewrite (members_merge v) by auto. fold w. rewrite Hm.
    destruct (Z.eqb_spec r w) as [-> | _]; [|now apply Hb].
    pose proof (Hb _ Rl) as Bl. pose proof (Hb _ Rw) as Bw.
    pose proof (members_nonneg s l). pose proof (members_nonneg s w).
    destruct (Z.max_spec (h w) (h l + 1)) as [[_ ->] | [_ ->]]; [|lia].
    replace (h l + 1) with (Z.succ (h l)) by lia.
    rewrite Z.pow_succ_r by apply Hc. lia.
Qed.

(** A property kept by [find] and by the merge of two roots is kept by every
    call. *)
Lemma exec_preserves v (P : DisjointSet -> Prop) :
  (forall s d x, wf s = true -> P s -> P (snd (find d x s))) ->
  (forall s rx ry, wf s = true -> P s ->
     is_root (parent s) rx = true -> is_root (parent s) ry = true -> rx <> ry ->
     P (merge v s rx ry)) ->
  forall d c s, wf s = true -> P s -> P (exec v d c s).
Proof.
  intros Hfind Hmerge d c s Hwf HP.
  assert (forall x y, let s1 := snd (find d x s) in let s2 := snd (find d y s1) in
            wf s1 = true /\ wf s2 = true /\ P s1 /\ P s2) as Htwo.
  { intros x y s1 s2.
    assert (wf s1 = true) as Hwf1.
    { subst s1. destruct (find d x s) as [res t] eqn:F.
      now destruct (find_sound _ _ _ _ _ Hwf F). }
    assert (wf s2 = true) as Hwf2.
    { subst s2. destruct (find d y s1) as [res t] eqn:F.
      now destruct (find_sound _ _ _ _ _ Hwf1 F). }
    assert (P s1) as HP1 by (apply Hfind; auto).
    repeat split; auto. apply Hfind; auto. }
  destruct c as [x | x y | x y]; cbn [exec].
  - now apply Hfind.
  - destruct (Htwo x y) as (Hwf1 & Hwf2 & HP1 & HP2).
    destruct (find d x s) as [[rx | e] s1] eqn:F1; simpl in *.
    + destruct (find d y s1) as [[ry | e] s2] eqn:F2; simpl in *.
      * destruct (find_sound _ _ _ _ _ Hwf F1) as (_ & Hsp1 & _ & Hrx & _).
        destruct (find_sound _ _ _ _ _ Hwf1 F2) as (_ & Hsp2 & _ & Hry & _).
        pose proof Hsp1 as (L1 & _ & R1 & _). pose proof Hsp2 as (L2 & _ & R2 & _).
        rewrite <- R1, <- R2 in Hrx. rewrite <- R2 in Hry.
        destruct (rep_is_root _ _ _ Hrx) as [Rx Hrgx].
        destruct (rep_is_root _ _ _ Hry) as [Ry Hrgy].
        pose proof Hwf2 as Hwf2'. apply wf_iff in Hwf2' as [Hlen2 _].
        rewrite (union_roots v _ _ _ _ _ _ _ _ F1 F2 Hlen2 Hrgx Hrgy).
        destruct (Z.eqb_spec rx ry); simpl; auto.
      * now rewrite (union_raise_y v _ _ _ _ _ _ _ _ F1 F2).
    + now rewrite (union_raise_x v _ _ y _ _ _ F1).
  - destruct (Htwo x y) as (_ & _ & HP1 & HP2).
    unfold is_connected, bind, ret.
    destruct (find d x s) as [[rx | e] s1] eqn:F1; simpl in *; [|exact HP1].
    destruct (find d y s1) as [[ry | e] s2] eqn:F2; simpl in *; exact HP2.
Qed.

Lemma run_preserves v (P : DisjointSet -> Prop) :
  (forall s d x, wf s = true -> P s -> P (snd (find d x s))) ->
  (forall s rx ry, wf s = true -> P s ->
     is_root (parent s) rx = true -> is_root (parent s) ry = true -> rx <> ry ->
     P (merge v s rx ry)) ->
  forall d cs s, wf s = true -> P s -> P (run v d cs s).
Proof.
  intros Hfind Hmerge d cs. induction cs as [|c cs IH]; intros s Hwf HP; simpl; [exact HP|].
  apply IH; [now apply exec_sound | now apply exec_preserves].
Qed.

Lemma members_init v size r :
  0 <= r < Z.of_nat (Z.to_nat size) -> members (init v size) r = 1.
Proof.
  intros Hr. unfold members. rewrite (list_filter_iff _ (fun x => x = r)).
  - rewrite length_filter_eq_one; [reflexivity | apply NoDup_indices |].
    apply elem_of_indices. now rewrite length_init.
  - intros x. rewrite rep_init.
    destruct (Z.leb_spec 0 x), (Z.ltb_spec x (Z.of_nat (Z.to_nat size))); simpl;
      split; intros E; try discriminate; try congruence; lia.
Qed.

Lemma ranked_init v size : ranked (init v size) (fun _ => 0).
Proof.
  split; [intros; lia|]. split.
  - intros x y Hxy Hne. rewrite entry_init in Hxy by (apply entry_Some in Hxy;
      rewrite length_init in Hxy; exact Hxy). congruence.
  - intros r Hr. apply is_root_entry in Hr as [_ Hr]. rewrite length_init in Hr.
    rewrite members_init by exact Hr. simpl. lia.
Qed.

Lemma weight_at_init_rank size x : weight_at (init ByRank size) x = 0.
Proof.
  unfold weight_at. destruct (entry (weight (init ByRank size)) x) as [w|] eqn:E;
    [|reflexivity].
  pose proof (entry_Some _ _ _ E) as Hx. simpl in Hx. rewrite length_replicate in Hx.
  rewrite entry_weight_init in E by exact Hx. congruence.
Qed.

(** In the rank variant the new ranks are the old ones, but for the
    surviving root, whose rank is the larger of its own and one more than
    the other root's. *)
Lemma weight_at_merge_rank s rx ry u :
  length (weight s) = length (parent s) ->
  0 <= rx < Z.of_nat (length (parent s)) ->
  weight_at (merge ByRank s rx ry) u =
  if u =? survivor s rx ry
  then Z.max (weight_at s (survivor s rx ry)) (weight_at s (loser s rx ry) + 1)
  else weight_at s u.
Proof.
  intros Hlen Hrx.
  assert (forall p, weight_at (mkDS p (weight s)) u = weight_at s u) as E1 by reflexivity.
  assert (forall p z, weight_at (mkDS p (upd (weight s) rx z)) u =
                      if u =? rx then z else weight_at s u) as E2.
  { intros p z. unfold weight_at. simpl weight.
    destruct (Z.eqb_spec u rx) as [-> | Hu].
    - now rewrite entry_upd_eq by lia.
    - now rewrite entry_upd_ne by lia. }
  unfold merge, loser, survivor.
  destruct (Z.ltb_spec (weight_at s rx) (weight_at s ry));
    [|destruct (Z.ltb_spec (weight_at s ry) (weight_at s rx))];
    rewrite ?E1, ?E2.
  - destruct (Z.eqb_spec u ry) as [-> | _]; lia.
  - destruct (Z.eqb_spec u rx) as [-> | _]; lia.
  - destruct (Z.eqb_spec u rx) as [-> | _]; lia.
Qed.

Lemma ranked_by_rank d cs size :
  ranked (run ByRank d cs (init ByRank size))
         (weight_at (run ByRank d cs (init ByRank size))).
Proof.
  apply (run_preserves ByRank (fun s => ranked s (weight_at s))).
  - intros s d' x Hwf H. destruct (find d' x s) as [res s'] eqn:F. simpl.
    destruct (find_sound _ _ _ _ _ Hwf F) as (_ & (_ & W & _) & _).
    apply (ranked_ext _ (weight_at s)); [|eapply ranked_find; eauto].
    intros u. unfold weight_at. now rewrite W.
  - intros s rx ry Hwf H Rx Ry Hne.
    destruct (loser_survivor s rx ry Rx Ry Hne) as (_ & Rw & _ & Hle & _).
    pose proof Hwf as Hwf'. apply wf_iff in Hwf' as [Hlen _].
    pose proof (is_root_entry _ _ Rx) as [_ Hrx].
    eapply ranked_ext; [|apply (ranked_merge ByRank s rx ry (weight_at s)); auto].
    + intros u. symmetry. now apply weight_at_merge_rank.
    + destruct H as (_ & _ & Hb). etransitivity; [|apply (Hb _ Rw)].
      apply Z.pow_le_mono_r; lia.
  - apply wf_init.
  - apply (ranked_ext _ (fun _ => 0)); [|apply ranked_init].
    intros u. symmetry. apply weight_at_init_rank.
Qed.

Lemma ranked_by_size d cs size :
  exists h, ranked (run BySize d cs (init BySize size)) h.
Proof.
  apply (run_preserves BySize (fun s => size_ok s /\ exists h, ranked s h)).
  - intros s d' x Hwf [Hs [h H]]. destruct (find d' x s) as [res s'] eqn:F. simpl.
    destruct (find_sound _ _ _ _ _ Hwf F) as (_ & Hsp & _).
    split; [eauto using size_ok_same_partition|].
    exists h. eapply ranked_find; eauto.
  - intros s rx ry Hwf [Hs [h H]] Rx Ry Hne.
    split; [now apply size_ok_merge|].
    destruct (loser_survivor s rx ry Rx Ry Hne) as (Rl & Rw & _ & Hle & _).
    eexists. apply (ranked_merge BySize s rx ry h); auto.
    destruct H as (_ & _ & Hb). etransitivity; [apply (Hb _ Rl)|].
    unfold weight_at in Hle. now rewrite (Hs _ Rl), (Hs _ Rw) in Hle.
  - apply wf_init.
  - split; [apply size_ok_init | exists (fun _ => 0); apply ranked_init].
Qed.

(** In the rank variant, on the object reached from [__init__] by any
    sequence of calls: no rank is negative, the rank of a node is strictly
    below the rank of its parent, and a root of rank k has at least 2^k
    elements in its set. *)
Theorem rank_invariant size d cs :
  let s := run ByRank d cs (init ByRank size) in
  (forall x, 0 <= weight_at s x) /\
  (forall x y, entry (parent s) x = Some y -> y <> x -> weight_at s x < weight_at s y) /\
  (forall r, is_root (parent s) r = true -> 2 ^ weight_at s r <= members s r).
Proof. intros s. apply ranked_by_rank. Qed.

(** In both variants the trees stay shallow: on the object reached from
    [__init__] by any sequence of calls, the chain from an element x to its
    root has at most log2(N) nodes below the root, so [find x] returns as soon
    as it is allowed more than that many nested calls. *)
Theorem logarithmic_depth v size d cs x :
  0 <= x < size ->
  let s := run v d cs (init v size) in
  exists vs r,
    chain (parent s) x vs r /\
    2 ^ Z.of_nat (length vs) <= size /\
    forall d', (length vs < d')%nat ->
               find d' x s = (Ok r, mkDS (compress (parent s) vs r) (weight s)).
Proof.
  intros Hx s.
  pose proof (wf_run v d cs size) as Hwf. fold s in Hwf.
  pose proof (length_run v d cs size) as L. fold s in L.
  assert (exists h, ranked s h) as [h (Hc & Ha & Hb)].
  { subst s. destruct v; [eexists; apply ranked_by_rank | apply ranked_by_size]. }
  pose proof Hwf as Hwf'. apply wf_iff in Hwf' as [_ HF].
  destruct (HF x) as (vs & r & Hch); [lia|]. exists vs, r.
  split; [exact Hch|]. split.
  - pose proof (ranked_chain _ h _ _ _ Ha Hch) as Hle.
    pose proof (Hc x). pose proof (Hc r).
    assert (is_root (parent s) r = true) as Hr.
    { unfold is_root. rewrite (chain_end _ _ _ _ Hch). apply Z.eqb_refl. }
    pose proof (Hb _ Hr). pose proof (members_le s r).
    assert (2 ^ Z.of_nat (length vs) <= 2 ^ h r) by (apply Z.pow_le_mono_r; lia).
    lia.
  - intros d' Hd. destruct s as [p w]. now apply (find_chain _ _ _ _ Hch).
Qed.

Lemma logarithmic_depth_witness :
  let s := run BySize 2 [Union 0 1; Union 2 3; Union 0 2; Union 4 5; Union 5 3]
               (init BySize 6) in
  exists vs r,
    chain (parent s) 5 vs r /\
    2 ^ Z.of_nat (length vs) <= 6 /\
    forall d', (length vs < d')%nat ->
               find d' 5 s = (Ok r, mkDS (compress (parent s) vs r) (weight s)).
Proof.
  apply (logarithmic_depth BySize 6 2
           [Union 0 1; Union 2 3; Union 0 2; Union 4 5; Union 5 3] 5). lia.
Defined.

(** ** Sizes of components and the number of merges *)

(** In the size variant, on the object reached from [__init__] by any
    sequence of calls, [find x] returns the representative [r] of [x], a
    root before and after the call, whose entry of [size] is the number of
    elements connected to [x]. *)
Theorem component_size size d cs x d' :
  0 <= x < size -> (Z.to_nat size < d')%nat ->
  let s := run BySize d cs (init BySize size) in
  exists r s1,
    find d' x s = (Ok r, s1) /\
    rep s x = Some r /\ is_root (parent s) r = true /\
    is_root (parent s1) r = true /\
    entry (weight s1) r =
    Some (Z.of_nat (length (filter (fun u => same_set s x u = true)
                                   (indices (length (parent s)))))).
Proof.
  intros Hx Hd s.
  pose proof (wf_run BySize d cs size) as Hwf. fold s in Hwf.
  pose proof (length_run BySize d cs size) as L. fold s in L.
  assert (size_ok s) as Hs by (apply run_size_ok; [apply wf_init | apply size_ok_init]).
  assert (valid (length (parent s)) x) as Hv by (unfold valid; lia).
  destruct (find_returns s x d' Hwf Hv) as (r & s1 & F); [lia|].
  destruct (find_sound _ _ _ _ _ Hwf F) as (_ & (_ & W & _ & I) & _ & Hr & _).
  rewrite norm_nonneg in Hr by lia.
  exists r, s1. split; [exact F|].
  destruct (rep_is_root _ _ _ Hr) as [Rr _].
  split; [exact Hr|]. split; [exact Rr|]. split; [now rewrite I|].
  rewrite W, (Hs _ Rr). unfold members. do 3 f_equal.
  apply list_filter_iff. intros u. unfold same_set. rewrite Hr.
  destruct (rep s u) as [q|]; [|split; discriminate].
  rewrite Z.eqb_eq. split; congruence.
Qed.

Lemma component_size_witness :
  let s := run BySize 9 [Union 0 1; Union 3 4; Union 1 4] (init BySize 6) in
  exists r s1,
    find 7 4 s = (Ok r, s1) /\
    rep s 4 = Some r /\ is_root (parent s) r = true /\
    is_root (parent s1) r = true /\
    entry (weight s1) r =
    Some (Z.of_nat (length (filter (fun u => same_set s 4 u = true)
                                   (indices (length (parent s)))))).
Proof.
  apply (component_size 6 9 [Union 0 1; Union 3 4; Union 1 4] 4 7); lia.
Defined.

Lemma exec_roots_length v d c s :
  wf s = true ->
  length (roots s) =
  (match c with
   | Union x y => match fst (union v d x y s) with Ok true => 1 | _ => 0 end
   | _ => 0
   end + length (roots (exec v d c s)))%nat.
Proof.
  intros Hwf. destruct c as [x | x y | x y]; cbn [exec].
  - destruct (find d x s) as [res s'] eqn:F.
    destruct (find_sound _ _ _ _ _ Hwf F) as (_ & Hsp & _).
    simpl. now rewrite (roots_same_partition _ _ Hsp).
  - destruct (union v d x y s) as [res s'] eqn:U.
    destruct (union_sound _ _ _ _ _ _ _ Hwf U) as (s2 & Hwf2 & Hsp & H).
    rewrite <- (roots_same_partition _ _ Hsp). simpl.
    destruct res as [b | e]; [|now destruct H as (-> & _)].
    destruct H as (_ & _ & rx & ry & Hrx & Hry & -> & -> & _).
    destruct (Z.eqb_spec rx ry) as [? | Hne]; [reflexivity|]. simpl.
    pose proof Hsp as (_ & _ & R & _). rewrite <- R in Hrx, Hry.
    destruct (rep_is_root _ _ _ Hrx) as [Rx _], (rep_is_root _ _ _ Hry) as [Ry _].
    destruct (merge_sound v _ _ _ Hwf2 Rx Ry Hne) as (_ & L & _ & I).
    destruct (loser_survivor s2 rx ry Rx Ry Hne) as (Rl & _).
    unfold roots. rewrite L.
    rewrite (length_filter_split (fun u => is_root (parent s2) u = true)
               (fun u => is_root (parent (merge v s2 rx ry)) u = true)
               (fun u => u = loser s2 rx ry)).
    + rewrite length_filter_eq_one; [lia | apply NoDup_indices |].
      apply elem_of_indices. now apply is_root_entry in Rl as [_ ?].
    + intros u. rewrite I, andb_true_iff, negb_true_iff, Z.eqb_neq.
      destruct (decide (u = loser s2 rx ry)) as [-> | ?]; tauto.
    + intros u Hu ->. rewrite I, Z.eqb_refl, andb_false_r in Hu. discriminate.
  - destruct (is_connected d x y s) as [res s'] eqn:F.
    destruct (is_connected_sound _ _ _ _ _ _ Hwf F) as (_ & Hsp & _).
    simpl. now rewrite (roots_same_partition _ _ Hsp).
Qed.

Lemma merges_roots v d cs s :
  wf s = true ->
  (merges v d cs s + length (roots (run v d cs s)))%nat = length (roots s).
Proof.
  revert s. induction cs as [|c cs IH]; intros s Hwf; [reflexivity|].
  cbn [merges run fold_left]. fold (run v d cs (exec v d c s)).
  rewrite (exec_roots_length v d c s Hwf).
  rewrite <- (IH (exec v d c s)) by now apply exec_sound. lia.
Qed.

(** Over any sequence of calls on a fresh object of N elements, the number
    of calls of [union] that returned true and the number of sets left add up
    to N; as a set is left when N >= 1, at most N - 1 calls of [union] ever
    return true. *)
Theorem merges_and_sets v size d cs :
  let s := run v d cs (init v size) in
  (merges v d cs (init v size) + length (roots s))%nat = Z.to_nat size /\
  (1 <= size -> (1 <= length (roots s))%nat /\
                Z.of_nat (merges v d cs (init v size)) <= size - 1).
Proof.
  intros s.
  assert ((merges v d cs (init v size) + length (roots s))%nat = Z.to_nat size) as E.
  { subst s. rewrite merges_roots by apply wf_init.
    now rewrite roots_init, length_indices. }
  split; [exact E|]. intros Hs.
  assert (1 <= length (roots s))%nat as Hone; [|split; [exact Hone | lia]].
  pose proof (wf_run v d cs size) as Hwf. fold s in Hwf.
  pose proof (length_run v d cs size) as L. fold s in L.
  destruct (rep_valid s 0 Hwf) as [r Hr]; [lia|].
  destruct (rep_is_root _ _ _ Hr) as [Rr Hrg].
  assert (r ∈ roots s) as Hin.
  { apply list_elem_of_filter. split; [exact Rr | now apply elem_of_indices]. }
  destruct (roots s); [inversion Hin | simpl; lia].
Qed.

Lemma merges_and_sets_witness :
  let cs := [Union 0 1; Union 1 0; Find 3; Union 2 3; Union 0 9; Union 3 1; Union 2 0] in
  let s := run ByRank 5 cs (init ByRank 4) in
  (merges ByRank 5 cs (init ByRank 4) + length (roots s))%nat = Z.to_nat 4 /\
  (1 <= length (roots s))%nat /\
  Z.of_nat (merges ByRank 5 cs (init ByRank 4)) <= 4 - 1.
Proof.
  intros cs s. destruct (merges_and_sets ByRank 4 5 cs) as [E H].
  split; [exact E|]. apply H. lia.
Defined.
